(** * Kaleidoscope front end: lexer, operator-precedence parser, driver loop

    A shallow embedding of [src/parser.cpp].  The C++ globals
    ([last_char], [identifier_str], [num_val], [cur_tok],
    [BinopPrecedence]) together with the two streams the program touches
    ([stdin], [stderr]) are gathered in one record that every routine
    threads explicitly.  Characters and tokens are C [int]s, modelled as
    [Z]; a [double] is a binary64 [spec_float]; [std::map<char,int>] is a
    [gmap Z Z]; [std::unique_ptr] results that may be [nullptr] are
    [option]s. *)

From Stdlib Require Import ZArith SpecFloat Ascii Lia.
From stdpp Require Import gmap strings list.

Local Open Scope Z_scope.

(** ** Characters *)

Definition EOF : Z := -1.

(** The value [getchar] yields for a byte: the byte as an [unsigned char]. *)
Definition code (a : ascii) : Z := Z.of_N (N_of_ascii a).
Arguments code a%_char.

(** Conversion of an [int] to the [char] appended to a [std::string]. *)
Definition to_char (c : Z) : ascii := ascii_of_N (Z.to_N (c mod 256)).

(** Conversion of an [int] to a [char] kept as a number (the [op] of a
    binary node, a key of the precedence map); [char] is signed on the
    platforms the program targets, and the conversion is the identity on
    0..127 whatever the signedness. *)
Definition char_of_int (c : Z) : Z := (c + 128) mod 256 - 128.

(** [<cctype>] classification in the "C" locale. *)
Definition isspace (c : Z) : bool := (c =? 32) || ((9 <=? c) && (c <=? 13)).
Definition isdigit (c : Z) : bool := (48 <=? c) && (c <=? 57).
Definition isalpha (c : Z) : bool :=
  ((65 <=? c) && (c <=? 90)) || ((97 <=? c) && (c <=? 122)).
Definition isalnum (c : Z) : bool := isalpha c || isdigit c.
(** [isascii(c)] is [((c) & ~0x7f) == 0]. *)
Definition isascii (c : Z) : bool := Z.land c (Z.lnot 127) =? 0.

(** ** Tokens: [enum Token], or the character itself *)

Definition tok_eof : Z := -1.
Definition tok_def : Z := -2.
Definition tok_extern : Z := -3.
Definition tok_identifier : Z := -4.
Definition tok_number : Z := -5.

(** ** Program state *)

Record state := mkState {
  stdin : string;               (* characters not yet read by getchar *)
  stderr : list string;         (* what has been printed, oldest first *)
  last_char : Z;                (* getTok's static look-ahead character *)
  identifier_str : string;
  num_val : spec_float;         (* a double: IEEE-754 binary64 *)
  cur_tok : Z;
  BinopPrecedence : gmap Z Z
}.

(** [getchar()] on a finite input: end of input is sticky. *)
Definition getchar (inp : string) : Z * string :=
  match inp with
  | EmptyString => (EOF, EmptyString)
  | String a rest => (code a, rest)
  end.

Definition with_lexer (st : state) (c : Z) (inp : string) : state :=
  mkState inp (stderr st) c (identifier_str st) (num_val st)
          (cur_tok st) (BinopPrecedence st).

Definition with_identifier (st : state) (id : string) : state :=
  mkState (stdin st) (stderr st) (last_char st) id (num_val st)
          (cur_tok st) (BinopPrecedence st).

Definition with_num (st : state) (v : spec_float) : state :=
  mkState (stdin st) (stderr st) (last_char st) (identifier_str st) v
          (cur_tok st) (BinopPrecedence st).

Definition with_tok (st : state) (t : Z) : state :=
  mkState (stdin st) (stderr st) (last_char st) (identifier_str st)
          (num_val st) t (BinopPrecedence st).

Definition with_table (st : state) (m : gmap Z Z) : state :=
  mkState (stdin st) (stderr st) (last_char st) (identifier_str st)
          (num_val st) (cur_tok st) m.

(** [fprintf(stderr, ...)] *)
Definition fprintf (msg : string) (st : state) : state :=
  mkState (stdin st) (stderr st ++ [msg]) (last_char st) (identifier_str st)
          (num_val st) (cur_tok st) (BinopPrecedence st).

(** ** [double] and [strtod]

    A [double] is an IEEE-754 binary64 number: a [spec_float] of the
    Standard Library at precision 53 and [emax] 1024.

    The buffer the lexer hands to [strtod] holds only digits and dots,
    so no sign, exponent, hexadecimal form, [inf] or [nan] can occur.
    On such a buffer the subject sequence of [strtod] is the longest
    prefix "digits, optionally one dot, digits" holding at least one
    digit; without one no conversion is performed and the result is
    zero.  Otherwise the result is the decimal value the subject
    sequence denotes, rounded as the C library rounds it in the default
    rounding mode: to the nearest binary64 number, ties to even, to
    infinity on overflow and to zero or a subnormal number on underflow.
    That value is the quotient of the integer [m] written by the digits
    and the power of ten [10 ^ nf] counted by the digits after the dot;
    [SFdiv] rounds the quotient once. *)

(** The quotient [m / d] of two positive integers, rounded to binary64. *)
Definition binary64_quotient (m d : positive) : spec_float :=
  SFdiv 53 1024 (S754_finite false m 0) (S754_finite false d 0).

(** The [double] an integer converts to; here for the literals of the
    properties, so that [NumberExprAST 1] reads as the node holding 1.0. *)
Definition double_of_Z (z : Z) : spec_float := binary_normalize 53 1024 z 0 false.
Coercion double_of_Z : Z >-> spec_float.

Fixpoint read_digits (s : string) (acc : Z) (n : nat) : Z * nat * string :=
  match s with
  | String a rest =>
      if isdigit (code a) then read_digits rest (10 * acc + (code a - 48)) (S n)
      else (acc, n, s)
  | EmptyString => (acc, n, s)
  end.

Definition strtod (s : string) : spec_float :=
  let '(ip, ni, rest) := read_digits s 0 0%nat in
  let '(m, nf) :=
    match rest with
    | String a rest' =>
        if code a =? 46 then
          let '(m, nf, _) := read_digits rest' ip 0%nat in (m, nf)
        else (ip, 0%nat)
    | EmptyString => (ip, 0%nat)
    end in
  if (ni + nf =? 0)%nat then S754_zero false
  else
    match m with
    | Zpos p => binary64_quotient p (Z.to_pos (10 ^ Z.of_nat nf))
    | _ => S754_zero false
    end.

(** ** Lexer *)

(** [while (isspace(last_char)) last_char = getchar();] *)
Fixpoint skip_space (c : Z) (inp : string) : Z * string :=
  if isspace c then
    match inp with
    | String a rest => skip_space (code a) rest
    | EmptyString => (EOF, EmptyString)
    end
  else (c, inp).

(** [while (isalnum((last_char = getchar()))) identifier_str += last_char;] *)
Fixpoint read_ident (acc : string) (inp : string) : string * Z * string :=
  match inp with
  | String a rest =>
      if isalnum (code a) then read_ident (acc +:+ String (to_char (code a)) "") rest
      else (acc, code a, rest)
  | EmptyString => (acc, EOF, EmptyString)
  end.

(** [do { num_str += last_char; last_char = getchar(); }
     while (isdigit(last_char) || last_char == '.');] *)
Fixpoint read_number (acc : string) (c : Z) (inp : string) : string * Z * string :=
  let acc' := acc +:+ String (to_char c) "" in
  match inp with
  | String a rest =>
      if isdigit (code a) || (code a =? 46) then read_number acc' (code a) rest
      else (acc', code a, rest)
  | EmptyString => (acc', EOF, EmptyString)
  end.

Definition getTok (st : state) : Z * state :=
  let '(c, inp) := skip_space (last_char st) (stdin st) in
  if isalpha c then
    let '(id, c', inp') := read_ident (String (to_char c) "") inp in
    let st' := with_identifier (with_lexer st c' inp') id in
    if String.eqb id "def" then (tok_def, st')
    else if String.eqb id "extern" then (tok_extern, st')
    else (tok_identifier, st')
  else if isdigit c || (c =? 46) then
    let '(num_str, c', inp') := read_number "" c inp in
    (tok_number, with_num (with_lexer st c' inp') (strtod num_str))
  else if c =? EOF then (tok_eof, with_lexer st c inp)
  else
    let '(c', inp') := getchar inp in
    (c, with_lexer st c' inp').

(** The program starts with the look-ahead a blank, the current token and
    the strings zero-initialised and the map empty. *)
Definition initial (inp : string) : state :=
  mkState inp [] 32 "" (S754_zero false) 0 ∅.

Definition getNextToken (st : state) : Z * state :=
  let '(t, st') := getTok st in (t, with_tok st' t).

(** ** Abstract syntax tree *)

#[warnings="-register-all"]
Inductive ExprAST :=
| NumberExprAST (val : spec_float)
| VariableExprAST (name : string)
| BinaryExprAST (op : Z) (lhs rhs : ExprAST)
| CallExprAST (callee : string) (args : list ExprAST).

Record PrototypeAST := mkPrototype { proto_name : string; proto_args : list string }.

Record FunctionAST := mkFunction { proto : PrototypeAST; body : ExprAST }.

(** ** Parser *)

Definition nl : string := String (ascii_of_N 10) "".

(** [std::map::operator[]]: a key that is absent is first inserted with a
    value-initialised (zero) mapped value. *)
Definition subscript (m : gmap Z Z) (k : Z) : Z * gmap Z Z :=
  match m !! k with
  | Some v => (v, m)
  | None => (0, <[k := 0]> m)
  end.

Definition getTokPrecedence (st : state) : Z * state :=
  if negb (isascii (cur_tok st)) then (-1, st)
  else
    let '(tok_prec, m) := subscript (BinopPrecedence st) (char_of_int (cur_tok st)) in
    let st' := with_table st m in
    if tok_prec <=? 0 then (-1, st') else (tok_prec, st').

(** [logError] prints and returns [nullptr]; the print is kept here, the
    [nullptr] is the [None] written at each use. *)
Definition logError (str : string) (st : state) : state :=
  fprintf ("Error: " +:+ str +:+ nl) st.

Definition logErrorP (str : string) (st : state) : state := logError str st.

Definition parseNumberExpr (st : state) : option ExprAST * state :=
  let result := NumberExprAST (num_val st) in
  let st' := snd (getNextToken st) in
  (Some result, st').

(** A routine that can recurse takes fuel; [None] at the outer level
    means the fuel ran out, [Some (None, _)] is the C++ [nullptr]. *)
Definition parser (A : Type) : Type := option (option A * state).

Fixpoint parseExpression (fuel : nat) (st : state) : parser ExprAST :=
  match fuel with
  | O => None
  | S f =>
      match parsePrimary f st with
      | None => None
      | Some (None, st1) => Some (None, st1)
      | Some (Some lhs, st1) => parseBinOpRHS f 0 lhs st1
      end
  end

with parsePrimary (fuel : nat) (st : state) : parser ExprAST :=
  match fuel with
  | O => None
  | S f =>
      if cur_tok st =? tok_identifier then parseIdentifierExpr f st
      else if cur_tok st =? tok_number then Some (parseNumberExpr st)
      else if cur_tok st =? code "(" then parseParenExpr f st
      else Some (None, logError "unknown token when expecting an expression" st)
  end

with parseParenExpr (fuel : nat) (st : state) : parser ExprAST :=
  match fuel with
  | O => None
  | S f =>
      let st0 := snd (getNextToken st) in
      match parseExpression f st0 with
      | None => None
      | Some (None, st1) => Some (None, st1)
      | Some (Some v, st1) =>
          if negb (cur_tok st1 =? code ")") then
            Some (None, logError "expected ')'" st1)
          else Some (Some v, snd (getNextToken st1))
      end
  end

with parseIdentifierExpr (fuel : nat) (st : state) : parser ExprAST :=
  match fuel with
  | O => None
  | S f =>
      let id_name := identifier_str st in
      let st0 := snd (getNextToken st) in
      if negb (cur_tok st0 =? code "(") then Some (Some (VariableExprAST id_name), st0)
      else
        let st1 := snd (getNextToken st0) in
        if negb (cur_tok st1 =? code ")") then
          match parseArgs f [] st1 with
          | None => None
          | Some (None, st2) => Some (None, st2)
          | Some (Some args, st2) =>
              Some (Some (CallExprAST id_name args), snd (getNextToken st2))
          end
        else Some (Some (CallExprAST id_name []), snd (getNextToken st1))
  end

(** The [while (true)] of [parseIdentifierExpr]; a [Some] list is the
    [break], [None] one of the two [return]s. *)
with parseArgs (fuel : nat) (args : list ExprAST) (st : state)
  : parser (list ExprAST) :=
  match fuel with
  | O => None
  | S f =>
      match parseExpression f st with
      | None => None
      | Some (None, st1) => Some (None, st1)
      | Some (Some arg, st1) =>
          let args' := args ++ [arg] in
          if cur_tok st1 =? code ")" then Some (Some args', st1)
          else if negb (cur_tok st1 =? code ",") then
            Some (None, logError "Expected ')' or ',' in argument list" st1)
          else parseArgs f args' (snd (getNextToken st1))
      end
  end

(** One recursive call per turn of the [while (true)]. *)
with parseBinOpRHS (fuel : nat) (expr_prec : Z) (lhs : ExprAST) (st : state)
  : parser ExprAST :=
  match fuel with
  | O => None
  | S f =>
      let '(tok_prec, st1) := getTokPrecedence st in
      if tok_prec <? expr_prec then Some (Some lhs, st1)
      else
        let bin_op := cur_tok st1 in
        let st2 := snd (getNextToken st1) in
        match parsePrimary f st2 with
        | None => None
        | Some (None, st3) => Some (None, st3)
        | Some (Some rhs, st3) =>
            let '(next_prec, st4) := getTokPrecedence st3 in
            if tok_prec <? next_prec then
              match parseBinOpRHS f (tok_prec + 1) rhs st4 with
              | None => None
              | Some (None, st5) => Some (None, st5)
              | Some (Some rhs', st5) =>
                  parseBinOpRHS f expr_prec
                    (BinaryExprAST (char_of_int bin_op) lhs rhs') st5
              end
            else
              parseBinOpRHS f expr_prec
                (BinaryExprAST (char_of_int bin_op) lhs rhs) st4
        end
  end.

(** [while (getNextToken() == tok_identifier) arg_names.push_back(identifier_str);] *)
Fixpoint read_arg_names (fuel : nat) (arg_names : list string) (st : state)
  : option (list string * state) :=
  match fuel with
  | O => None
  | S f =>
      let '(t, st1) := getNextToken st in
      if t =? tok_identifier then
        read_arg_names f (arg_names ++ [identifier_str st1]) st1
      else Some (arg_names, st1)
  end.

Definition parsePrototype (fuel : nat) (st : state) : parser PrototypeAST :=
  if negb (cur_tok st =? tok_identifier) then
    Some (None, logErrorP "Expected function name in prototype" st)
  else
    let fn_name := identifier_str st in
    let st0 := snd (getNextToken st) in
    if negb (cur_tok st0 =? code "(") then
      Some (None, logErrorP "Expected '(' in prototype" st0)
    else
      match read_arg_names fuel [] st0 with
      | None => None
      | Some (arg_names, st1) =>
          if negb (cur_tok st1 =? code ")") then
            Some (None, logErrorP "Expected ')' in prototype" st1)
          else Some (Some (mkPrototype fn_name arg_names), snd (getNextToken st1))
      end.

Definition parseDefinition (fuel : nat) (st : state) : parser FunctionAST :=
  let st0 := snd (getNextToken st) in
  match parsePrototype fuel st0 with
  | None => None
  | Some (None, st1) => Some (None, st1)
  | Some (Some p, st1) =>
      match parseExpression fuel st1 with
      | None => None
      | Some (Some e, st2) => Some (Some (mkFunction p e), st2)
      | Some (None, st2) => Some (None, st2)
      end
  end.

Definition parseTopLevelExpr (fuel : nat) (st : state) : parser FunctionAST :=
  match parseExpression fuel st with
  | None => None
  | Some (Some e, st1) => Some (Some (mkFunction (mkPrototype "" []) e), st1)
  | Some (None, st1) => Some (None, st1)
  end.

Definition parseExtern (fuel : nat) (st : state) : parser PrototypeAST :=
  parsePrototype fuel (snd (getNextToken st)).

(** ** Top-level parsing *)

(** The three handlers share one shape: report on success, otherwise skip
    one token. *)
Definition handle {A} (parse : nat -> state -> parser A) (report : string)
    (fuel : nat) (st : state) : option state :=
  match parse fuel st with
  | None => None
  | Some (Some _, st1) => Some (fprintf report st1)
  | Some (None, st1) => Some (snd (getNextToken st1))
  end.

Definition handleDefinition : nat -> state -> option state :=
  handle parseDefinition ("Parsed a function definition." +:+ nl).

Definition handleExtern : nat -> state -> option state :=
  handle parseExtern ("Parsed an extern" +:+ nl).

Definition handleTopLevelExpression : nat -> state -> option state :=
  handle parseTopLevelExpr ("Parsed a top-level expr" +:+ nl).

(** The [switch] of [mainLoop] for a current token other than [tok_eof]. *)
Definition dispatch (fuel : nat) (st : state) : option state :=
  if cur_tok st =? code ";" then Some (snd (getNextToken st))
  else if cur_tok st =? tok_def then handleDefinition fuel st
  else if cur_tok st =? tok_extern then handleExtern fuel st
  else handleTopLevelExpression fuel st.

Fixpoint mainLoop (fuel : nat) (st : state) : option state :=
  match fuel with
  | O => None
  | S f =>
      let st0 := fprintf "ready> " st in
      if cur_tok st0 =? tok_eof then Some st0
      else
        match dispatch f st0 with
        | None => None
        | Some st1 => mainLoop f st1
        end
  end.

(** ** Main driver *)

(** [BinopPrecedence[c] = p;] *)
Definition assign (c p : Z) (st : state) : state :=
  with_table st (<[char_of_int c := p]> (snd (subscript (BinopPrecedence st) (char_of_int c)))).

Definition install_binops (st : state) : state :=
  assign (code "*") 40 (assign (code "-") 20 (assign (code "+") 20 (assign (code "<") 10 st))).

(** [main] up to and including the priming of the first token. *)
Definition start (inp : string) : state :=
  snd (getNextToken (fprintf "ready> " (install_binops (initial inp)))).

Definition main (fuel : nat) (inp : string) : option state :=
  mainLoop fuel (start inp).

(** * Vocabulary of the properties *)

(** Characters still to be lexed: the unread input and the look-ahead,
    unless the look-ahead is already the end marker. *)
Definition unread (st : state) : nat :=
  String.length (stdin st) + (if last_char st =? EOF then 0%nat else 1%nat).

(** The same count on a look-ahead and an input taken apart. *)
Definition left_of (c : Z) (inp : string) : nat :=
  String.length inp + (if c =? EOF then 0%nat else 1%nat).

(** The part of the state the lexer reads. *)
Definition lexview (st : state) : Z * string := (last_char st, stdin st).

(** The tokens the lexer delivers before [tok_eof], read off with a
    bounded number of calls. *)
Fixpoint lex_all (fuel : nat) (st : state) : list Z :=
  match fuel with
  | O => []
  | S f =>
      let '(t, st') := getTok st in
      if t =? tok_eof then [] else t :: lex_all f st'
  end.

(** One call per unread character is always enough. *)
Definition pending (st : state) : list Z := lex_all (S (unread st)) st.

(** Tokens not yet consumed: the current one, unless it is [tok_eof], and
    those still to come. *)
Definition remaining (st : state) : nat :=
  (if cur_tok st =? tok_eof then 0%nat else 1%nat) + length (pending st).

(** Going from [a] to [b] consumed tokens, or none; it gave none back. *)
Definition no_more_tokens (a b : state) : Prop := (remaining b <= remaining a)%nat.

(** A routine [p] entered in [st] returns [r] and leaves [st']. *)
Definition returns {A} (p : nat -> state -> parser A) (st : state)
    (r : option A) (st' : state) : Prop :=
  exists fuel, p fuel st = Some (r, st').

(** A result, once reached, is the result for every larger fuel. *)
Definition fuel_monotone {A} (p : nat -> state -> parser A) : Prop :=
  forall f f' st res, (f <= f')%nat -> p f st = Some res -> p f' st = Some res.

(** [n] calls of [getTok] in a row: the tokens answered and the final state. *)
Fixpoint getTok_times (n : nat) (st : state) : list Z * state :=
  match n with
  | O => ([], st)
  | S k =>
      let '(t, st1) := getTok st in
      let '(ts, st2) := getTok_times k st1 in
      (t :: ts, st2)
  end.

(** What follows is not a digit and not a dot, or there is nothing. *)
Definition follows_dot (inp : string) : bool :=
  match inp with
  | EmptyString => true
  | String a _ => negb (isdigit (code a) || (code a =? code "."))
  end.

(** The precedence a table gives a character, absent read as zero. *)
Definition precedence_of (m : gmap Z Z) (c : Z) : Z := default 0 (m !! c).

(** The table once [main] has installed the operators. *)
Definition main_table : gmap Z Z := BinopPrecedence (install_binops (initial "")).

(** The characters [main] registers. *)
Definition binops : list ascii := ["<"; "+"; "-"; "*"]%char.

(** The source text [1 o1 2 o2 3]. *)
Definition three_operands (o1 o2 : ascii) : string :=
  String "1" (String o1 (String "2" (String o2 "3"))).

(** The two shapes a tree over three operands can take. *)
Definition right_nested (o1 o2 : ascii) : ExprAST :=
  BinaryExprAST (code o1) (NumberExprAST 1)
    (BinaryExprAST (code o2) (NumberExprAST 2) (NumberExprAST 3)).

Definition left_nested (o1 o2 : ascii) : ExprAST :=
  BinaryExprAST (code o2)
    (BinaryExprAST (code o1) (NumberExprAST 1) (NumberExprAST 2))
    (NumberExprAST 3).

(** [getNextToken] for its effect on the state. *)
Definition advance (st : state) : state := snd (getNextToken st).

(** The argument loop entered with [args] already read. *)
Definition parseArgs_from (args : list ExprAST) (fuel : nat) (st : state)
  : parser (list ExprAST) := parseArgs fuel args st.

(** Between [a] and [b] the table kept every entry as it was and gained
    at most entries whose value is zero. *)
Definition only_zero_added (a b : state) : Prop :=
  forall k,
    BinopPrecedence b !! k = BinopPrecedence a !! k \/
    (BinopPrecedence a !! k = None /\ BinopPrecedence b !! k = Some 0).

(** One of the four registered operator characters. *)
Definition is_binop (c : Z) : bool :=
  (c =? code "<") || (c =? code "+") || (c =? code "-") || (c =? code "*").

(** Every binary node of [e], at any depth and inside call arguments,
    holds a registered operator. *)
Fixpoint binary_ops_registered (e : ExprAST) : bool :=
  match e with
  | NumberExprAST _ => true
  | VariableExprAST _ => true
  | BinaryExprAST op lhs rhs =>
      is_binop op && binary_ops_registered lhs && binary_ops_registered rhs
  | CallExprAST _ args => forallb binary_ops_registered args
  end.

(** The table is the one [main] installs, up to entries that are zero. *)
Definition table_as_installed (st : state) : Prop :=
  forall k, precedence_of (BinopPrecedence st) k = precedence_of main_table k.

(** A line [logError] prints. *)
Definition is_error_line (s : string) : Prop :=
  exists str, s = "Error: " +:+ str +:+ nl.

(** From [a] to [b] nothing but error lines was printed. *)
Definition only_errors_printed (a b : state) : Prop :=
  exists errs, stderr b = stderr a ++ errs /\ Forall is_error_line errs.

(** A handler [h] entered in [st] finishes in [st']. *)
Definition runs (h : nat -> state -> option state) (st st' : state) : Prop :=
  exists fuel, h fuel st = Some st'.


(** The operator loop entered with [lhs] at minimal precedence [expr_prec]. *)
Definition parseBinOpRHS_from (expr_prec : Z) (lhs : ExprAST) (fuel : nat)
    (st : state) : parser ExprAST := parseBinOpRHS fuel expr_prec lhs st.

(** [p] relates the state it is entered in with the state it returns. *)
Definition keeps {A} (R : state -> state -> Prop) (p : state -> parser A) : Prop :=
  forall st r st', p st = Some (r, st') -> R st st'.

(** ** Further vocabulary: lexer, diagnostics, names, round trips *)

(** [f] holds of every character of [s]. *)
Fixpoint string_forallb (f : Z -> bool) (s : string) : bool :=
  match s with
  | EmptyString => true
  | String a rest => f (code a) && string_forallb f rest
  end.

(** The first character of [s], if any, fails [f]. *)
Definition stops (f : Z -> bool) (s : string) : bool :=
  match s with
  | EmptyString => true
  | String a _ => negb (f (code a))
  end.

(** The look-ahead is what [getchar] can have answered. *)
Definition lookahead_ok (st : state) : Prop :=
  last_char st = EOF \/ 0 <= last_char st <= 255.

(** The token [getTok] answers on an alphanumeric word. *)
Definition word_token (w : string) : Z :=
  if String.eqb w "def" then tok_def
  else if String.eqb w "extern" then tok_extern
  else tok_identifier.

(** A letter followed by letters and digits. *)
Definition is_identifier_text (s : string) : bool :=
  match s with
  | EmptyString => false
  | String a rest => isalpha (code a) && string_forallb isalnum rest
  end.

(** An identifier that is not a keyword. *)
Definition is_name (s : string) : Prop :=
  is_identifier_text s = true /\ s <> "def" /\ s <> "extern".

(** Nothing was printed between [a] and [b]. *)
Definition quiet (a b : state) : Prop := stderr b = stderr a.

(** Exactly one line was printed between [a] and [b], by [logError]. *)
Definition one_error (a b : state) : Prop :=
  exists str, stderr b = stderr a ++ ["Error: " +:+ str +:+ nl].

(** Silence with a result, one error line without. *)
Definition outcome {A} (st : state) (r : option A) (st' : state) : Prop :=
  match r with
  | Some _ => quiet st st'
  | None => one_error st st'
  end.

(** The report the driver prints for a construct that starts with token
    [t] and parses. *)
Definition report_for (t : Z) : string :=
  if t =? tok_def then "Parsed a function definition." +:+ nl
  else if t =? tok_extern then "Parsed an extern" +:+ nl
  else "Parsed a top-level expr" +:+ nl.

(** The tokens not yet consumed, the current one first. *)
Definition tokens (st : state) : list Z :=
  (if cur_tok st =? tok_eof then [] else [cur_tok st]) ++ pending st.

Definition consumes_front (a b : state) : Prop := tokens b `suffix_of` tokens a.

(** [is_name], decided. *)
Definition name_ok (s : string) : bool :=
  is_identifier_text s && negb (String.eqb s "def") && negb (String.eqb s "extern").

(** Variables and callees of [e], at any depth, are names. *)
Fixpoint names_ok (e : ExprAST) : bool :=
  match e with
  | NumberExprAST _ => true
  | VariableExprAST name => name_ok name
  | BinaryExprAST _ lhs rhs => names_ok lhs && names_ok rhs
  | CallExprAST callee args => name_ok callee && forallb names_ok args
  end.

(** The state is one the lexer produces: a look-ahead [getchar] can have
    answered, and with [tok_identifier] current a name in
    [identifier_str]. *)
Definition lexed (st : state) : Prop :=
  lookahead_ok st /\
  (cur_tok st = tok_identifier -> name_ok (identifier_str st) = true).

Definition stays_lexed (a b : state) : Prop := lexed a -> lexed b.

(** Once the look-ahead is the end marker nothing is left to read. *)
Definition drained (st : state) : Prop := last_char st = EOF -> stdin st = "".

(** [tok_eof] is current only at the end marker, and the end marker only
    at an empty input. *)
Definition at_end_sound (st : state) : Prop :=
  (cur_tok st = tok_eof -> last_char st = EOF) /\ drained st.

Definition stays_sound (a b : state) : Prop := at_end_sound a -> at_end_sound b.

Definition digit_or_dot (c : Z) : bool := isdigit c || (c =? 46).

(** The lines the program can print. *)
Definition driver_line (s : string) : Prop :=
  s = "ready> " \/ s = report_for tok_def \/ s = report_for tok_extern \/
  s = report_for 0 \/ is_error_line s.

(** Parameters as the grammar wants them: separated by blanks, no commas. *)
Fixpoint render_params (ps : list string) : string :=
  match ps with
  | [] => ""
  | p :: ps' => " " +:+ p +:+ render_params ps'
  end.

Definition render_prototype (name : string) (ps : list string) : string :=
  name +:+ "(" +:+ render_params ps +:+ ")".

(** The lexer stands in front of the text [t]: its look-ahead is the first
    character of [t] and the rest of [t] is what is unread. *)
Definition positioned (s : state) (t : string) : Prop :=
  match t with
  | String a inp => last_char s = code a /\ stdin s = inp
  | EmptyString => False
  end.

(** ** Operator chains and their trees *)

(** One link of an operator chain: the operator character, the precedence
    the table gave it when it was met, and the primary read after it. *)
Definition link : Type := Z * Z * ExprAST.

Definition link_prec (l : link) : Z := snd (fst l).

(** The tree the operator loop builds, with what the tree itself forgets:
    which nodes the loop made (a [Join], with the precedence of its
    operator) and which subtrees it took whole from [parsePrimary] (an
    [Operand], a parenthesised expression included). *)
Inductive chain_tree : Type :=
| Operand (e : ExprAST)
| Join (op prec : Z) (l r : chain_tree).

Fixpoint erase (t : chain_tree) : ExprAST :=
  match t with
  | Operand e => e
  | Join op _ l r => BinaryExprAST op (erase l) (erase r)
  end.

(** The operands and operators of a tree as they stand in the source,
    left to right: the first operand, then the links. *)
Fixpoint first_operand (t : chain_tree) : ExprAST :=
  match t with
  | Operand e => e
  | Join _ _ l _ => first_operand l
  end.

Fixpoint links (t : chain_tree) : list link :=
  match t with
  | Operand _ => []
  | Join op prec l r => links l ++ (op, prec, first_operand r) :: links r
  end.

(** Every operator the loop joined in [t] has precedence [b] or more. *)
Fixpoint binds_at_least (b : Z) (t : chain_tree) : bool :=
  match t with
  | Operand _ => true
  | Join _ prec l r => (b <=? prec) && binds_at_least b l && binds_at_least b r
  end.

(** Precedence is respected and equal precedence nests to the left: under
    an operator of precedence [prec], the left operand holds operators of
    precedence [prec] or more, the right operand only operators of
    precedence strictly more. *)
Fixpoint well_nested (t : chain_tree) : bool :=
  match t with
  | Operand _ => true
  | Join _ prec l r =>
      well_nested l && well_nested r &&
      binds_at_least prec l && binds_at_least (prec + 1) r
  end.

(** The source read as a chain, without any nesting: from [st], where an
    operator is current, the query gives a positive precedence, the
    operator is skipped, [parsePrimary] returns an operand, and so on;
    the chain may end at any operand, in the state the query leaves. *)
Inductive operator_chain : state -> list link -> state -> Prop :=
| chain_end st :
    operator_chain st [] (snd (getTokPrecedence st))
| chain_link st op prec rhs st3 ls st' :
    fst (getTokPrecedence st) = prec ->
    0 < prec ->
    op = char_of_int (cur_tok st) ->
    returns parsePrimary (advance (snd (getTokPrecedence st))) (Some rhs) st3 ->
    operator_chain st3 ls st' ->
    operator_chain st ((op, prec, rhs) :: ls) st'.

(** The tree that nests every link to the left. *)
Definition nest_left (first : ExprAST) (ls : list link) : ExprAST :=
  fold_left (fun acc l => BinaryExprAST (fst (fst l)) acc (snd l)) ls first.

(** The character [a] written [n] times. *)
Fixpoint run_of (a : ascii) (n : nat) : string :=
  match n with
  | O => EmptyString
  | S k => String a (run_of a k)
  end.

(** * Properties *)

(** ** Characters *)

Lemma isascii_range (c : Z) : isascii c = true <-> 0 <= c <= 127.
Proof.
  unfold isascii. rewrite Z.eqb_eq.
  change 127 with (Z.ones 7) at 1.
  rewrite <- Z.ldiff_land, Z.ldiff_ones_r by lia.
  rewrite Z.shiftl_mul_pow2, Z.shiftr_div_pow2 by lia.
  change (2 ^ 7) with 128.
  pose proof (Z.div_mod c 128 ltac:(lia)).
  pose proof (Z.mod_pos_bound c 128 ltac:(lia)). lia.
Qed.

Lemma char_of_int_ascii (c : Z) : isascii c = true -> char_of_int c = c.
Proof.
  rewrite isascii_range. intros H. unfold char_of_int.
  rewrite Z.mod_small; lia.
Qed.

Lemma code_range (a : ascii) : 0 <= code a <= 255.
Proof.
  unfold code. pose proof (N_ascii_bounded a). lia.
Qed.

Lemma code_not_EOF (a : ascii) : code a <> EOF.
Proof. pose proof (code_range a). unfold EOF. lia. Qed.

Lemma tok_eof_not_ascii : isascii tok_eof = false.
Proof. reflexivity. Qed.

(** ** Lexer: what one call consumes *)

Lemma skip_space_left c inp c' inp' :
  skip_space c inp = (c', inp') ->
  (left_of c' inp' <= left_of c inp)%nat /\ isspace c' = false /\
  (isspace c = false -> c' = c /\ inp' = inp) /\
  (isspace c = true -> (left_of c' inp' < left_of c inp)%nat).
Proof.
  revert c c' inp'. induction inp as [|a rest IH]; intros c c' inp' H; simpl in H.
  - destruct (isspace c) eqn:E; inversion H; subst; clear H.
    + assert ((c =? EOF) = false) as Hc.
      { apply Z.eqb_neq. intros ->. discriminate. }
      unfold left_of; simpl. rewrite Hc. repeat split; try lia; try done.
    + repeat split; auto. discriminate.
  - destruct (isspace c) eqn:E.
    + apply IH in H as (H1 & H2 & _). 
      assert ((c =? EOF) = false) as Hc.
      { apply Z.eqb_neq. intros ->. discriminate. }
      pose proof (code_not_EOF a) as Ha. apply Z.eqb_neq in Ha.
      unfold left_of in *; simpl. rewrite Ha in H1. rewrite Hc. 
      repeat split; try done; lia.
    + inversion H; subst. repeat split; auto. discriminate.
Qed.

Lemma read_ident_left acc inp id c' inp' :
  read_ident acc inp = (id, c', inp') ->
  (left_of c' inp' <= String.length inp)%nat.
Proof.
  revert acc. induction inp as [|a rest IH]; intros acc H; simpl in H.
  - inversion H; subst. unfold left_of; simpl. lia.
  - destruct (isalnum (code a)).
    + apply IH in H. simpl. lia.
    + inversion H; subst. unfold left_of; simpl.
      destruct (code a =? EOF); lia.
Qed.

Lemma read_number_left acc c inp s c' inp' :
  read_number acc c inp = (s, c', inp') ->
  (left_of c' inp' <= String.length inp)%nat.
Proof.
  revert acc c. induction inp as [|a rest IH]; intros acc c H; simpl in H.
  - inversion H; subst. unfold left_of; simpl. lia.
  - destruct (isdigit (code a) || (code a =? 46)).
    + apply IH in H. simpl. lia.
    + inversion H; subst. unfold left_of; simpl.
      destruct (code a =? EOF); lia.
Qed.

Lemma unread_with_lexer st c inp : unread (with_lexer st c inp) = left_of c inp.
Proof. reflexivity. Qed.

(** At the end marker the lexer answers [tok_eof] and touches nothing. *)
Lemma getTok_at_EOF (st : state) :
  last_char st = EOF -> getTok st = (tok_eof, st).
Proof.
  intros H. unfold getTok. destruct st as [inp err c id nv t m]; simpl in *; subst c.
  destruct inp; reflexivity.
Qed.

(** Any other call reads at least one character; and [tok_eof] is only
    ever answered with the look-ahead left on the end marker. *)
Lemma getTok_consumes (st : state) t st' :
  getTok st = (t, st') ->
  (t = tok_eof -> last_char st' = EOF) /\
  (last_char st <> EOF -> (unread st' < unread st)%nat) /\
  (unread st' <= unread st)%nat.
Proof.
  unfold getTok.
  destruct (skip_space (last_char st) (stdin st)) as [c inp] eqn:Hs.
  apply skip_space_left in Hs as (Hle & Hsp & Hsame & Hlt).
  change (unread st) with (left_of (last_char st) (stdin st)).
  assert (Hone : forall n, c <> EOF -> (n <= String.length inp)%nat ->
             (n < left_of c inp)%nat).
  { intros n Hc Hn. unfold left_of. apply Z.eqb_neq in Hc. rewrite Hc. lia. }
  destruct (isalpha c) eqn:Ha.
  { destruct (read_ident _ inp) as [[id c'] inp'] eqn:Hr.
    apply read_ident_left in Hr.
    assert (c <> EOF) as Hc by (intros ->; discriminate).
    specialize (Hone _ Hc Hr).
    assert (unread (with_identifier (with_lexer st c' inp') id) = left_of c' inp')
      as Hu by reflexivity.
    repeat case_match; intros [= <- <-]; rewrite Hu;
      (split; [discriminate|]); lia. }
  destruct (isdigit c || (c =? 46)) eqn:Hd.
  { destruct (read_number _ c inp) as [[s c'] inp'] eqn:Hr.
    apply read_number_left in Hr.
    assert (c <> EOF) as Hc by (intros ->; discriminate).
    specialize (Hone _ Hc Hr).
    intros [= <- <-].
    change (unread (with_num (with_lexer st c' inp') (strtod s)))
      with (left_of c' inp').
    (split; [discriminate|]); lia. }
  destruct (c =? EOF) eqn:He.
  { intros [= <- <-]. rewrite unread_with_lexer.
    apply Z.eqb_eq in He. subst c. split; [reflexivity|]. split; [|lia].
    intros Hne.
    destruct (isspace (last_char st)) eqn:E.
    - exact (Hlt eq_refl).
    - destruct (Hsame eq_refl) as [Hc _]. congruence. }
  apply Z.eqb_neq in He.
  assert (forall c' inp', getchar inp = (c', inp') ->
            (left_of c' inp' < left_of c inp)%nat) as Hg.
  { intros c' inp' Hg. apply Hone; [done|].
    destruct inp as [|a rest]; simpl in Hg; inversion Hg; subst; unfold left_of; simpl.
    - lia.
    - pose proof (code_not_EOF a) as Hn. apply Z.eqb_neq in Hn. rewrite Hn. lia. }
  destruct (getchar inp) as [c' inp'] eqn:Hgc.
  specialize (Hg _ _ eq_refl).
  intros [= <- <-]. rewrite unread_with_lexer.
  split; [intros ->; exfalso; apply He; reflexivity|]. lia.
Qed.

(** ** The token stream *)

Lemma getTok_view (st1 st2 : state) :
  lexview st1 = lexview st2 ->
  fst (getTok st1) = fst (getTok st2) /\
  lexview (snd (getTok st1)) = lexview (snd (getTok st2)).
Proof.
  unfold lexview, getTok. intros [= -> ->].
  destruct (skip_space _ _) as [c inp].
  destruct (isalpha c).
  { destruct (read_ident _ _) as [[id c'] inp']. repeat case_match; done. }
  destruct (isdigit c || (c =? 46)).
  { destruct (read_number _ _ _) as [[s c'] inp']. done. }
  destruct (c =? EOF); [done|]. destruct (getchar inp). done.
Qed.

Lemma lex_all_view fuel (st1 st2 : state) :
  lexview st1 = lexview st2 -> lex_all fuel st1 = lex_all fuel st2.
Proof.
  revert st1 st2. induction fuel as [|f IH]; intros st1 st2 Hv; [done|].
  simpl. destruct (getTok_view _ _ Hv) as [Ht Hv'].
  destruct (getTok st1) as [t1 s1], (getTok st2) as [t2 s2]; simpl in *; subst t2.
  destruct (t1 =? tok_eof); [done|]. f_equal. by apply IH.
Qed.

Lemma lex_all_enough f1 f2 (st : state) :
  (unread st < f1)%nat -> (unread st < f2)%nat -> lex_all f1 st = lex_all f2 st.
Proof.
  revert f2 st. induction f1 as [|f1 IH]; intros f2 st H1 H2; [lia|].
  destruct f2 as [|f2]; [lia|]. simpl.
  destruct (getTok st) as [t st'] eqn:E.
  destruct (t =? tok_eof) eqn:Et; [done|]. f_equal.
  assert (last_char st <> EOF) as Hne.
  { intros Heof. rewrite (getTok_at_EOF _ Heof) in E. inversion E; subst. done. }
  destruct (getTok_consumes _ _ _ E) as (_ & Hlt & _). specialize (Hlt Hne).
  apply IH; lia.
Qed.

Lemma pending_view (st1 st2 : state) :
  lexview st1 = lexview st2 -> pending st1 = pending st2.
Proof.
  intros Hv. unfold pending.
  assert (unread st1 = unread st2) as ->.
  { unfold unread. by injection Hv as -> ->. }
  by apply lex_all_view.
Qed.

Lemma pending_step (st : state) t st' :
  getTok st = (t, st') ->
  pending st = if t =? tok_eof then [] else t :: pending st'.
Proof.
  intros E. unfold pending at 1. simpl. rewrite E.
  destruct (t =? tok_eof) eqn:Et; [done|]. f_equal.
  assert (last_char st <> EOF) as Hne.
  { intros Heof. rewrite (getTok_at_EOF _ Heof) in E. inversion E; subst. done. }
  destruct (getTok_consumes _ _ _ E) as (_ & Hlt & _). specialize (Hlt Hne).
  apply lex_all_enough; lia.
Qed.

Lemma pending_at_EOF (st : state) : last_char st = EOF -> pending st = [].
Proof.
  intros H. by rewrite (pending_step _ _ _ (getTok_at_EOF _ H)).
Qed.

(** [getNextToken] drops exactly the current token from what remains
    (nothing when the current token is already [tok_eof]). *)
Lemma remaining_getNextToken (st : state) :
  remaining st =
  ((if (cur_tok st =? tok_eof)%Z then 0 else 1) + remaining (snd (getNextToken st)))%nat.
Proof.
  unfold getNextToken. destruct (getTok st) as [t st'] eqn:E. simpl.
  unfold remaining at 1 2. f_equal.
  rewrite (pending_step _ _ _ E).
  assert (pending (with_tok st' t) = pending st') as -> by (by apply pending_view).
  change (cur_tok (with_tok st' t)) with t.
  destruct (t =? tok_eof) eqn:Et; [|done].
  apply Z.eqb_eq in Et.
  destruct (getTok_consumes _ _ _ E) as (Heof & _).
  by rewrite pending_at_EOF by auto.
Qed.

Lemma cur_tok_getNextToken (st : state) :
  cur_tok (snd (getNextToken st)) = fst (getNextToken st).
Proof. unfold getNextToken. by destruct (getTok st). Qed.

Lemma getTokPrecedence_frame (st : state) :
  let st' := snd (getTokPrecedence st) in
  stdin st' = stdin st /\ stderr st' = stderr st /\ last_char st' = last_char st /\
  identifier_str st' = identifier_str st /\ num_val st' = num_val st /\
  cur_tok st' = cur_tok st.
Proof.
  unfold getTokPrecedence. destruct (negb _); [done|].
  destruct (subscript _ _) as [p m]. by destruct (p <=? 0).
Qed.

Lemma remaining_getTokPrecedence (st : state) :
  remaining (snd (getTokPrecedence st)) = remaining st.
Proof.
  destruct (getTokPrecedence_frame st) as (H1 & _ & H3 & _ & _ & H6).
  unfold remaining. rewrite H6. f_equal. f_equal.
  apply pending_view. unfold lexview. by rewrite H1, H3.
Qed.

Lemma remaining_fprintf msg (st : state) : remaining (fprintf msg st) = remaining st.
Proof. unfold remaining. f_equal. f_equal. by apply pending_view. Qed.

(** ** Relations every parse routine preserves

The parse routines change the state only through [getNextToken],
    [getTokPrecedence] and [logError].  A transitive relation
    that these respect therefore relates the state a routine is
    entered in with the state it returns. *)

Section Preservation.
Variable R : state -> state -> Prop.
Hypothesis R_trans : forall a b c, R a b -> R b c -> R a c.
Hypothesis R_next : forall st, R st (snd (getNextToken st)).
Hypothesis R_prec : forall st, R st (snd (getTokPrecedence st)).
Hypothesis R_error : forall msg st, R st (logError msg st).

Local Ltac chain n :=
  lazymatch n with
  | O => fail
  | S ?m =>
      solve
        [ eassumption
        | apply R_next
        | apply R_error
        | eapply R_trans;
          [ (eassumption + apply R_next + apply R_error) | ]; chain m ]
  end.

Lemma parse_keeps (fuel : nat) :
  keeps R (parseExpression fuel) /\ keeps R (parsePrimary fuel) /\
  keeps R (parseParenExpr fuel) /\ keeps R (parseIdentifierExpr fuel) /\
  (forall args, keeps R (parseArgs fuel args)) /\
  (forall expr_prec lhs, keeps R (parseBinOpRHS fuel expr_prec lhs)).
Proof.
  induction fuel as [|f (IHe & IHp & IHpar & IHid & IHargs & IHbin)];
    [by repeat split; repeat intro|].
  repeat split.
  - intros st r st' H. simpl in H.
    destruct (parsePrimary f st) as [[[lhs|] s1]|] eqn:E; [| |done].
    + apply IHp in E. apply IHbin in H. chain 3%nat.
    + apply IHp in E. inversion H; subst. done.
  - intros st r st' H. simpl in H. unfold parseNumberExpr in H.
    repeat case_match; first [apply IHid in H | apply IHpar in H | inversion H; subst];
      chain 3%nat.
  - intros st r st' H. simpl in H.
    destruct (parseExpression f _) as [[[v|] s1]|] eqn:E; [| |done]; apply IHe in E.
    + destruct (negb _); inversion H; subst; chain 4%nat.
    + inversion H; subst; chain 4%nat.
  - intros st r st' H. simpl in H.
    destruct (negb _); [inversion H; subst; chain 3%nat|].
    destruct (negb _); [|inversion H; subst; chain 4%nat].
    destruct (parseArgs f _ _) as [[[v|] s1]|] eqn:E; [| |done]; apply IHargs in E;
      inversion H; subst; chain 5%nat.
  - intros args st r st' H. simpl in H.
    destruct (parseExpression f _) as [[[v|] s1]|] eqn:E; [| |done]; apply IHe in E.
    + destruct (_ =? _); [inversion H; subst; chain 3%nat|].
      destruct (negb _); [inversion H; subst; chain 3%nat|].
      apply IHargs in H. chain 5%nat.
    + inversion H; subst; chain 4%nat.
  - intros expr_prec lhs st r st' H. simpl in H.
    pose proof (R_prec st) as K0.
    destruct (getTokPrecedence st) as [tok_prec s1]; simpl in K0.
    destruct (_ <? _); [inversion H; subst; chain 3%nat|].
    destruct (parsePrimary f _) as [[[rhs|] s3]|] eqn:E; [| |done]; apply IHp in E.
    + pose proof (R_prec s3) as K1.
      destruct (getTokPrecedence s3) as [next_prec s4]; simpl in K1.
      destruct (_ <? _).
      * destruct (parseBinOpRHS f _ _ _) as [[[rhs'|] s5]|] eqn:E'; [| |done];
          apply IHbin in E'.
        -- apply IHbin in H. chain 8%nat.
        -- inversion H; subst. chain 8%nat.
      * apply IHbin in H. chain 8%nat.
    + inversion H; subst. chain 5%nat.
Qed.

Lemma parseExpression_keeps fuel : keeps R (parseExpression fuel).
Proof. apply parse_keeps. Qed.

Lemma read_arg_names_keeps fuel names st names' st' :
  read_arg_names fuel names st = Some (names', st') -> R st st'.
Proof.
  revert names st. induction fuel as [|f IH]; intros names st H; [done|].
  simpl in H. pose proof (R_next st) as K.
  destruct (getNextToken st) as [t s1]; simpl in K.
  destruct (t =? tok_identifier).
  - apply IH in H. chain 3%nat.
  - inversion H; subst. done.
Qed.

Lemma parsePrototype_keeps fuel : keeps R (parsePrototype fuel).
Proof.
  intros st r st' H. unfold parsePrototype, logErrorP in H.
  destruct (negb _); [inversion H; subst; chain 3%nat|].
  destruct (negb _); [inversion H; subst; chain 3%nat|].
  destruct (read_arg_names _ _ _) as [[names s1]|] eqn:E; [|done].
  apply read_arg_names_keeps in E.
  destruct (negb _); inversion H; subst; chain 5%nat.
Qed.

Lemma parseDefinition_keeps fuel : keeps R (parseDefinition fuel).
Proof.
  intros st r st' H. unfold parseDefinition in H.
  destruct (parsePrototype _ _) as [[[p|] s1]|] eqn:E; [| |done];
    apply parsePrototype_keeps in E.
  - destruct (parseExpression _ _) as [[[e|] s2]|] eqn:E'; [| |done];
      apply parseExpression_keeps in E'; inversion H; subst; chain 5%nat.
  - inversion H; subst; chain 5%nat.
Qed.

Lemma parseTopLevelExpr_keeps fuel : keeps R (parseTopLevelExpr fuel).
Proof.
  intros st r st' H. unfold parseTopLevelExpr in H.
  destruct (parseExpression _ _) as [[[e|] s2]|] eqn:E'; [| |done];
    apply parseExpression_keeps in E'; inversion H; subst; chain 5%nat.
Qed.

Lemma parseExtern_keeps fuel : keeps R (parseExtern fuel).
Proof.
  intros st r st' H. unfold parseExtern in H.
  apply parsePrototype_keeps in H. chain 3%nat.
Qed.

(** The driver also prints its prompt and its reports. *)
Hypothesis R_print : forall msg st, R st (fprintf msg st).

Local Ltac chain' n :=
  lazymatch n with
  | O => fail
  | S ?m =>
      solve
        [ eassumption
        | apply R_next
        | apply R_print
        | eapply R_trans;
          [ (eassumption + apply R_next + apply R_print) | ]; chain' m ]
  end.

Lemma handle_keeps {A} (parse : nat -> state -> parser A) report fuel st st' :
  keeps R (parse fuel) -> handle parse report fuel st = Some st' -> R st st'.
Proof.
  intros Hp H. unfold handle in H.
  destruct (parse fuel st) as [[[e|] s2]|] eqn:E; [| |done];
    apply Hp in E; inversion H; subst; chain' 5%nat.
Qed.

Lemma dispatch_keeps fuel st st' : dispatch fuel st = Some st' -> R st st'.
Proof.
  unfold dispatch, handleDefinition, handleExtern, handleTopLevelExpression.
  intros H.
  destruct (_ =? _); [|destruct (_ =? _); [|destruct (_ =? _)]].
  - inversion H; subst. chain' 2%nat.
  - eapply handle_keeps; [|exact H]. apply parseDefinition_keeps.
  - eapply handle_keeps; [|exact H]. apply parseExtern_keeps.
  - eapply handle_keeps; [|exact H]. apply parseTopLevelExpr_keeps.
Qed.

Lemma mainLoop_keeps fuel st st' : mainLoop fuel st = Some st' -> R st st'.
Proof.
  revert st. induction fuel as [|f IH]; intros st H; [done|].
  simpl in H. destruct (_ =? _).
  - inversion H; subst. chain' 2%nat.
  - destruct (dispatch f _) as [s1|] eqn:E; [|done].
    apply dispatch_keeps in E. apply IH in H. chain' 4%nat.
Qed.
End Preservation.

(** ** No routine ever gives tokens back *)

Lemma remaining_advance_le (st : state) :
  (remaining (snd (getNextToken st)) <= remaining st)%nat.
Proof. rewrite (remaining_getNextToken st). lia. Qed.

Lemma remaining_advance (st : state) :
  cur_tok st <> tok_eof ->
  (remaining (snd (getNextToken st)) < remaining st)%nat.
Proof.
  intros H. rewrite (remaining_getNextToken st).
  apply Z.eqb_neq in H. rewrite H. lia.
Qed.

Lemma nmt_parse (fuel : nat) :
  keeps no_more_tokens (parseExpression fuel) /\
  keeps no_more_tokens (parsePrimary fuel) /\
  keeps no_more_tokens (parseParenExpr fuel) /\
  keeps no_more_tokens (parseIdentifierExpr fuel) /\
  (forall args, keeps no_more_tokens (parseArgs fuel args)) /\
  (forall expr_prec lhs, keeps no_more_tokens (parseBinOpRHS fuel expr_prec lhs)).
Proof.
  apply parse_keeps; unfold no_more_tokens; intros.
  - lia.
  - apply remaining_advance_le.
  - by rewrite remaining_getTokPrecedence.
  - unfold logError. by rewrite remaining_fprintf.
Qed.

(** What the precedence query answers: [-1], or the positive entry the
    table holds for the current (ASCII) token. *)
Lemma getTokPrecedence_result (st : state) p st' :
  getTokPrecedence st = (p, st') ->
  cur_tok st' = cur_tok st /\ remaining st' = remaining st /\
  (p = -1 \/
   (0 < p /\ isascii (cur_tok st) = true /\
    BinopPrecedence st !! cur_tok st = Some p)).
Proof.
  intros H.
  pose proof (getTokPrecedence_frame st) as F.
  pose proof (remaining_getTokPrecedence st) as Hr.
  rewrite H in F, Hr. simpl in F, Hr.
  destruct F as (_ & _ & _ & _ & _ & F). repeat split; try done.
  revert H. unfold getTokPrecedence.
  destruct (isascii (cur_tok st)) eqn:Ea; simpl; [|intros [= <- <-]; by left].
  rewrite (char_of_int_ascii _ Ea). unfold subscript.
  destruct (BinopPrecedence st !! cur_tok st) as [v|] eqn:El.
  - destruct (v <=? 0) eqn:Ev; intros [= <- <-]; [by left|right]. 
    repeat split; try done. lia.
  - simpl. intros [= <- <-]. by left.
Qed.

(** ** Every routine returns: fuel linear in the tokens that remain is enough *)

Local Ltac not_eof H :=
  apply Z.eqb_eq in H; rewrite H; clear; compute; congruence.

Lemma parse_total (fuel : nat) : forall st,
  ((4 * remaining st + 4 <= fuel)%nat ->
     exists r st', parseExpression fuel st = Some (r, st')) /\
  ((4 * remaining st + 3 <= fuel)%nat ->
     exists r st', parsePrimary fuel st = Some (r, st')) /\
  (cur_tok st <> tok_eof -> (4 * remaining st + 2 <= fuel)%nat ->
     exists r st', parseParenExpr fuel st = Some (r, st')) /\
  (cur_tok st <> tok_eof -> (4 * remaining st + 2 <= fuel)%nat ->
     exists r st', parseIdentifierExpr fuel st = Some (r, st')) /\
  (forall args, (4 * remaining st + 5 <= fuel)%nat ->
     exists r st', parseArgs fuel args st = Some (r, st')) /\
  (forall expr_prec lhs, 0 <= expr_prec -> (4 * remaining st + 3 <= fuel)%nat ->
     exists r st', parseBinOpRHS fuel expr_prec lhs st = Some (r, st')).
Proof.
  induction fuel as [|f IH]; [intros st; repeat split; intros; lia|].
  destruct (nmt_parse f) as (Ke & Kp & Kpar & Kid & Kargs & Kbin).
  unfold keeps, no_more_tokens in *.
  intros st. repeat split.
  - intros Hf. simpl.
    destruct (IH st) as (_ & IHp & _). destruct IHp as (r & s1 & E); [lia|].
    rewrite E. apply Kp in E. destruct r as [lhs|]; [|eauto].
    destruct (IH s1) as (_ & _ & _ & _ & _ & IHbin). apply IHbin; lia.
  - intros Hf. simpl.
    destruct (IH st) as (_ & _ & IHpar & IHid & _).
    destruct (cur_tok st =? tok_identifier) eqn:E1.
    { apply IHid; [not_eof E1|lia]. }
    destruct (cur_tok st =? tok_number) eqn:E2; [eauto|].
    destruct (cur_tok st =? code "(") eqn:E3; [|eauto].
    apply IHpar; [not_eof E3|lia].
  - intros Hne Hf. simpl.
    pose proof (remaining_advance st Hne) as Hlt.
    destruct (IH (snd (getNextToken st))) as (IHe & _).
    destruct IHe as (r & s1 & E); [lia|]. rewrite E.
    destruct r as [v|]; [|eauto]. destruct (negb _); eauto.
  - intros Hne Hf. simpl.
    pose proof (remaining_advance st Hne) as Hlt.
    destruct (negb _); [eauto|].
    destruct (negb _); [|eauto].
    pose proof (remaining_advance_le (snd (getNextToken st))) as Hle.
    destruct (IH (snd (getNextToken (snd (getNextToken st))))) as (_ & _ & _ & _ & IHargs & _).
    destruct (IHargs []) as (r & s1 & E); [lia|]. rewrite E.
    destruct r; eauto.
  - intros args Hf. simpl.
    destruct (IH st) as (IHe & _). destruct IHe as (r & s1 & E); [lia|].
    rewrite E. apply Ke in E. destruct r as [arg|]; [|eauto].
    destruct (cur_tok s1 =? code ")") eqn:E1; [eauto|].
    destruct (cur_tok s1 =? code ",") eqn:E2; simpl; [|eauto].
    assert (cur_tok s1 <> tok_eof) as Hne by not_eof E2.
    pose proof (remaining_advance s1 Hne) as Hlt.
    destruct (IH (snd (getNextToken s1))) as (_ & _ & _ & _ & IHargs & _).
    apply IHargs. lia.
  - intros expr_prec lhs Hprec Hf. simpl.
    destruct (getTokPrecedence st) as [tok_prec s1] eqn:E0.
    apply getTokPrecedence_result in E0 as (Hc & Hr & Hp).
    destruct (tok_prec <? expr_prec) eqn:Elt; [eauto|].
    apply Z.ltb_ge in Elt.
    destruct Hp as [->|(Hpos & Hasc & _)]; [lia|].
    assert (cur_tok s1 <> tok_eof) as Hne.
    { rewrite Hc. intros Heq. rewrite Heq in Hasc. discriminate. }
    pose proof (remaining_advance s1 Hne) as Hlt.
    destruct (IH (snd (getNextToken s1))) as (_ & IHp & _).
    destruct IHp as (r & s3 & E); [lia|]. rewrite E. apply Kp in E.
    destruct r as [rhs|]; [|eauto].
    destruct (getTokPrecedence s3) as [next_prec s4] eqn:E1.
    apply getTokPrecedence_result in E1 as (_ & Hr4 & _).
    destruct (IH s4) as (_ & _ & _ & _ & _ & IHbin).
    destruct (tok_prec <? next_prec).
    + destruct (IHbin (tok_prec + 1) rhs) as (r' & s5 & E'); [lia|lia|].
      rewrite E'. apply Kbin in E'. destruct r' as [rhs'|]; [|eauto].
      destruct (IH s5) as (_ & _ & _ & _ & _ & IHbin5). apply IHbin5; lia.
    + apply IHbin; lia.
Qed.

Lemma read_arg_names_total (fuel : nat) : forall names st,
  cur_tok st <> tok_eof -> (remaining st <= fuel)%nat ->
  exists names' st', read_arg_names fuel names st = Some (names', st').
Proof.
  induction fuel as [|f IH]; intros names st Hne Hf.
  - pose proof (remaining_advance st Hne). lia.
  - simpl. pose proof (remaining_advance st Hne) as Hlt.
    pose proof (cur_tok_getNextToken st) as Hc.
    destruct (getNextToken st) as [t s1]; simpl in *.
    destruct (t =? tok_identifier) eqn:E; [|eauto].
    apply IH; [|lia]. rewrite Hc. not_eof E.
Qed.

Lemma parsePrototype_total (fuel : nat) (st : state) :
  (remaining st <= fuel)%nat ->
  exists r st', parsePrototype fuel st = Some (r, st').
Proof.
  intros Hf. unfold parsePrototype.
  destruct (negb _); [eauto|].
  destruct (cur_tok (snd (getNextToken st)) =? code "(") eqn:E; simpl; [|eauto].
  pose proof (remaining_advance_le st) as Hle.
  destruct (read_arg_names_total fuel [] (snd (getNextToken st)))
    as (names & s1 & E1); [not_eof E|lia|].
  rewrite E1. destruct (negb _); eauto.
Qed.

Lemma nmt_parsePrototype fuel : keeps no_more_tokens (parsePrototype fuel).
Proof.
  apply parsePrototype_keeps; unfold no_more_tokens; intros.
  - lia.
  - apply remaining_advance_le.
  - unfold logError. by rewrite remaining_fprintf.
Qed.

Lemma parseDefinition_total (fuel : nat) (st : state) :
  (4 * remaining st + 4 <= fuel)%nat ->
  exists r st', parseDefinition fuel st = Some (r, st').
Proof.
  intros Hf. unfold parseDefinition.
  pose proof (remaining_advance_le st) as Hle.
  destruct (parsePrototype_total fuel (snd (getNextToken st))) as (r & s1 & E); [lia|].
  rewrite E. apply nmt_parsePrototype in E. unfold no_more_tokens in E.
  destruct r as [p|]; [|eauto].
  destruct (parse_total fuel s1) as (He & _).
  destruct He as (r & s2 & E2); [lia|]. rewrite E2. destruct r; eauto.
Qed.

Lemma parseTopLevelExpr_total (fuel : nat) (st : state) :
  (4 * remaining st + 4 <= fuel)%nat ->
  exists r st', parseTopLevelExpr fuel st = Some (r, st').
Proof.
  intros Hf. unfold parseTopLevelExpr.
  destruct (parse_total fuel st) as (He & _).
  destruct He as (r & s2 & E2); [lia|]. rewrite E2. destruct r; eauto.
Qed.

Lemma parseExtern_total (fuel : nat) (st : state) :
  (4 * remaining st + 4 <= fuel)%nat ->
  exists r st', parseExtern fuel st = Some (r, st').
Proof.
  intros Hf. unfold parseExtern.
  pose proof (remaining_advance_le st) as Hle.
  apply parsePrototype_total. lia.
Qed.

Lemma handle_total {A} (parse : nat -> state -> parser A) report fuel st :
  (exists r st', parse fuel st = Some (r, st')) ->
  exists st', handle parse report fuel st = Some st'.
Proof.
  intros (r & s1 & E). unfold handle. rewrite E. destruct r; eauto.
Qed.

Lemma dispatch_total (fuel : nat) (st : state) :
  (4 * remaining st + 4 <= fuel)%nat ->
  exists st', dispatch fuel st = Some st'.
Proof.
  intros Hf. unfold dispatch.
  destruct (_ =? _); [eauto|]. destruct (_ =? _); [|destruct (_ =? _)];
    apply handle_total; auto using parseDefinition_total, parseExtern_total,
                             parseTopLevelExpr_total.
Qed.

(** ** Forward progress of the driver *)

(** A primary either consumes a token or fails on the spot. *)
Lemma parsePrimary_progress fuel st r st' :
  parsePrimary fuel st = Some (r, st') ->
  cur_tok st <> tok_eof ->
  (remaining st' < remaining st)%nat \/
  (r = None /\ cur_tok st' = cur_tok st /\ remaining st' = remaining st).
Proof.
  destruct fuel as [|f]; [done|]. simpl. intros H Hne.
  pose proof (remaining_advance st Hne) as Hlt.
  destruct (nmt_parse f) as (Ke & _ & _ & _ & Kargs & _).
  unfold keeps, no_more_tokens in *.
  destruct (cur_tok st =? tok_identifier).
  { left. destruct f as [|f']; [done|]. simpl in H.
    destruct (nmt_parse f') as (_ & _ & _ & _ & Kargs' & _).
    unfold keeps, no_more_tokens in *.
    pose proof (remaining_advance_le (snd (getNextToken st))) as H1.
    destruct (negb _); [by inversion H; subst|].
    destruct (negb _).
    - destruct (parseArgs f' _ _) as [[[args|] s2]|] eqn:E; [| |done];
        apply Kargs' in E; inversion H; subst; [|lia].
      pose proof (remaining_advance_le s2). lia.
    - inversion H; subst.
      pose proof (remaining_advance_le (snd (getNextToken (snd (getNextToken st))))).
      lia. }
  destruct (cur_tok st =? tok_number).
  { left. unfold parseNumberExpr in H. by inversion H; subst. }
  destruct (cur_tok st =? code "(").
  { left. destruct f as [|f']; [done|]. simpl in H.
    destruct (nmt_parse f') as (Ke' & _). unfold keeps, no_more_tokens in *.
    destruct (parseExpression f' _) as [[[v|] s1]|] eqn:E; [| |done];
      apply Ke' in E; [|inversion H; subst; lia].
    destruct (negb _); inversion H; subst.
    - unfold logError. rewrite remaining_fprintf. lia.
    - pose proof (remaining_advance_le s1). lia. }
  right. inversion H; subst. unfold logError. rewrite remaining_fprintf. done.
Qed.

Lemma parseExpression_progress fuel st r st' :
  parseExpression fuel st = Some (r, st') ->
  cur_tok st <> tok_eof ->
  (remaining st' < remaining st)%nat \/
  (r = None /\ cur_tok st' = cur_tok st /\ remaining st' = remaining st).
Proof.
  destruct fuel as [|f]; [done|]. simpl. intros H Hne.
  destruct (parsePrimary f st) as [[[lhs|] s1]|] eqn:E; [| |done].
  - left. destruct (parsePrimary_progress _ _ _ _ E Hne) as [Hlt|(Hn & _)]; [|done].
    destruct (nmt_parse f) as (_ & _ & _ & _ & _ & Kbin).
    apply Kbin in H. unfold no_more_tokens in H. lia.
  - inversion H; subst. by apply (parsePrimary_progress _ _ _ _ E).
Qed.

(** One turn of the loop on a token other than [tok_eof] leaves strictly
    fewer tokens. *)
Lemma dispatch_progress fuel st st' :
  cur_tok st <> tok_eof ->
  dispatch fuel st = Some st' ->
  (remaining st' < remaining st)%nat.
Proof.
  intros Hne. unfold dispatch.
  pose proof (remaining_advance st Hne) as Hlt.
  destruct (_ =? _); [by intros [= <-]|].
  destruct (_ =? _).
  { unfold handleDefinition, handle.
    destruct (parseDefinition fuel st) as [[r s1]|] eqn:E; [|done].
    assert (remaining s1 < remaining st)%nat as Hs1.
    { unfold parseDefinition in E.
      destruct (parsePrototype _ _) as [[[p|] s0]|] eqn:Ep; [| |done];
        apply nmt_parsePrototype in Ep; unfold no_more_tokens in Ep.
      - destruct (parseExpression _ _) as [[[e|] s2]|] eqn:Ee; [| |done];
          apply (proj1 (nmt_parse fuel)) in Ee; unfold no_more_tokens in Ee;
          inversion E; subst; lia.
      - inversion E; subst; lia. }
    destruct r; intros [= <-].
    - rewrite remaining_fprintf; lia.
    - pose proof (remaining_advance_le s1); lia. }
  destruct (_ =? _).
  { unfold handleExtern, handle, parseExtern.
    destruct (parsePrototype _ _) as [[[p|] s0]|] eqn:Ep; [| |done];
      apply nmt_parsePrototype in Ep; unfold no_more_tokens in *; intros [= <-].
    - rewrite remaining_fprintf. lia.
    - pose proof (remaining_advance_le s0). lia. }
  unfold handleTopLevelExpression, handle, parseTopLevelExpr.
  destruct (parseExpression _ _) as [[[e|] s2]|] eqn:Ee; [| |done]; intros [= <-];
    destruct (parseExpression_progress _ _ _ _ Ee Hne) as [Hl|(Hn & Hc & Hr)];
    try done.
  - rewrite remaining_fprintf. lia.
  - pose proof (remaining_advance_le s2). lia.
  - assert (cur_tok s2 <> tok_eof) as Hne2 by congruence.
    pose proof (remaining_advance s2 Hne2). lia.
Qed.

Lemma mainLoop_stops_at_eof fuel st st' :
  mainLoop fuel st = Some st' -> cur_tok st' = tok_eof.
Proof.
  revert st. induction fuel as [|f IH]; intros st H; [done|].
  simpl in H. destruct (cur_tok st =? tok_eof) eqn:E.
  - inversion H; subst. simpl. by apply Z.eqb_eq.
  - destruct (dispatch f _) as [s1|]; [|done]. by apply IH in H.
Qed.

Lemma mainLoop_total (fuel : nat) : forall st,
  (4 * remaining st + 5 <= fuel)%nat ->
  exists st', mainLoop fuel st = Some st'.
Proof.
  induction fuel as [|f IH]; intros st Hf; [lia|].
  simpl. destruct (cur_tok st =? tok_eof) eqn:E; [eauto|].
  pose proof (remaining_fprintf "ready> " st) as Hr.
  destruct (dispatch_total f (fprintf "ready> " st)) as (s1 & E1); [lia|].
  rewrite E1. apply dispatch_progress in E1; [|simpl; by apply Z.eqb_neq].
  apply IH. lia.
Qed.

(** ** More fuel never changes a result *)

Lemma parse_mono (f : nat) : forall f', (f <= f')%nat ->
  (forall st res, parseExpression f st = Some res -> parseExpression f' st = Some res) /\
  (forall st res, parsePrimary f st = Some res -> parsePrimary f' st = Some res) /\
  (forall st res, parseParenExpr f st = Some res -> parseParenExpr f' st = Some res) /\
  (forall st res, parseIdentifierExpr f st = Some res ->
                  parseIdentifierExpr f' st = Some res) /\
  (forall args st res, parseArgs f args st = Some res ->
                       parseArgs f' args st = Some res) /\
  (forall expr_prec lhs st res, parseBinOpRHS f expr_prec lhs st = Some res ->
                                parseBinOpRHS f' expr_prec lhs st = Some res).
Proof.
  induction f as [|f IH]; intros f' Hle; [by repeat split; intros|].
  destruct f' as [|f']; [lia|].
  destruct (IH f' ltac:(lia)) as (IHe & IHp & IHpar & IHid & IHargs & IHbin).
  repeat split.
  - intros st res H. simpl in *.
    destruct (parsePrimary f st) as [[[lhs|] s1]|] eqn:E; [| |done];
      rewrite (IHp _ _ E); auto.
  - intros st res H. simpl in *. repeat case_match; auto.
  - intros st res H. simpl in *.
    destruct (parseExpression f _) as [[[v|] s1]|] eqn:E; [| |done];
      rewrite (IHe _ _ E); auto.
  - intros st res H. simpl in *.
    destruct (negb _); [done|]. destruct (negb _); [|done].
    destruct (parseArgs f _ _) as [[[v|] s1]|] eqn:E; [| |done];
      rewrite (IHargs _ _ _ E); auto.
  - intros args st res H. simpl in *.
    destruct (parseExpression f _) as [[[v|] s1]|] eqn:E; [| |done];
      rewrite (IHe _ _ E); auto.
    destruct (_ =? _); [done|]. destruct (negb _); [done|]. auto.
  - intros expr_prec lhs st res H. simpl in *.
    destruct (getTokPrecedence st) as [tok_prec s1].
    destruct (_ <? _); [done|].
    destruct (parsePrimary f _) as [[[rhs|] s3]|] eqn:E; [| |done];
      rewrite (IHp _ _ E); auto.
    destruct (getTokPrecedence s3) as [next_prec s4].
    destruct (_ <? _); [|auto].
    destruct (parseBinOpRHS f _ _ _) as [[[rhs'|] s5]|] eqn:E'; [| |done];
      rewrite (IHbin _ _ _ _ E'); auto.
Qed.

Lemma read_arg_names_mono (f f' : nat) names st res :
  (f <= f')%nat ->
  read_arg_names f names st = Some res -> read_arg_names f' names st = Some res.
Proof.
  revert f' names st. induction f as [|f IH]; intros f' names st Hle H; [done|].
  destruct f' as [|f']; [lia|]. simpl in *.
  destruct (getNextToken st) as [t s1]. destruct (_ =? _); [|done].
  apply IH; [lia|done].
Qed.

Lemma returns_deterministic {A} (p : nat -> state -> parser A) st r1 s1 r2 s2 :
  fuel_monotone p ->
  returns p st r1 s1 -> returns p st r2 s2 -> r1 = r2 /\ s1 = s2.
Proof.
  intros Hm [f1 H1] [f2 H2].
  apply (Hm f1 (max f1 f2)) in H1; [|lia].
  apply (Hm f2 (max f1 f2)) in H2; [|lia].
  rewrite H1 in H2. by inversion H2.
Qed.

Lemma parseExpression_mono : fuel_monotone parseExpression.
Proof. intros f f' st res Hle. by apply (parse_mono f f' Hle). Qed.


Lemma parseParenExpr_mono : fuel_monotone parseParenExpr.
Proof. intros f f' st res Hle. by apply (parse_mono f f' Hle). Qed.

Lemma parseIdentifierExpr_mono : fuel_monotone parseIdentifierExpr.
Proof. intros f f' st res Hle. by apply (parse_mono f f' Hle). Qed.

Lemma parseArgs_mono args : fuel_monotone (fun f => parseArgs f args).
Proof. intros f f' st res Hle. by apply (parse_mono f f' Hle). Qed.


Lemma parsePrototype_mono : fuel_monotone parsePrototype.
Proof.
  intros f f' st res Hle. unfold parsePrototype.
  destruct (negb _); [done|]. destruct (negb _); [done|].
  destruct (read_arg_names f _ _) as [[names s1]|] eqn:E; [|done].
  by rewrite (read_arg_names_mono _ _ _ _ _ Hle E).
Qed.

Lemma parseDefinition_mono : fuel_monotone parseDefinition.
Proof.
  intros f f' st res Hle. unfold parseDefinition.
  destruct (parsePrototype f _) as [[[p|] s1]|] eqn:E; [| |done];
    rewrite (parsePrototype_mono _ _ _ _ Hle E); [|done].
  destruct (parseExpression f _) as [[[e|] s2]|] eqn:E'; [| |done];
    by rewrite (parseExpression_mono _ _ _ _ Hle E').
Qed.

Lemma parseTopLevelExpr_mono : fuel_monotone parseTopLevelExpr.
Proof.
  intros f f' st res Hle. unfold parseTopLevelExpr.
  destruct (parseExpression f _) as [[[e|] s2]|] eqn:E'; [| |done];
    by rewrite (parseExpression_mono _ _ _ _ Hle E').
Qed.

Lemma parseExtern_mono : fuel_monotone parseExtern.
Proof. intros f f' st res Hle. unfold parseExtern. by apply parsePrototype_mono. Qed.

Lemma getTok_times_at_EOF (st : state) (n : nat) :
  last_char st = EOF -> getTok_times n st = (replicate n tok_eof, st).
Proof.
  intros H. induction n as [|n IH]; [done|].
  simpl. rewrite (getTok_at_EOF _ H), IH. done.
Qed.

(** From any state, as many calls as there are unread characters bring
    the look-ahead to the end marker. *)
Lemma getTok_times_reaches_EOF (n : nat) : forall st,
  (unread st <= n)%nat -> last_char (snd (getTok_times n st)) = EOF.
Proof.
  induction n as [|n IH]; intros st Hn.
  - simpl. unfold unread in Hn.
    destruct (last_char st =? EOF) eqn:E; [by apply Z.eqb_eq|lia].
  - destruct (Z.eq_dec (last_char st) EOF) as [He|Hne].
    + by rewrite (getTok_times_at_EOF _ _ He).
    + simpl. destruct (getTok st) as [t st1] eqn:E.
      destruct (getTok_consumes _ _ _ E) as (_ & Hlt & _). specialize (Hlt Hne).
      specialize (IH st1 ltac:(lia)).
      by destruct (getTok_times n st1) as [ts st2].
Qed.

(** C8.  Once the look-ahead character is the end marker (the input is
    exhausted), any number of further calls of [getTok] all answer
    [tok_eof], and the whole state, input and diagnostics included, is
    left as it was.  Every finite input gets there: as many calls as
    there are unread characters leave the look-ahead on the end marker. *)
Theorem lexer_idempotent_at_eof (st : state) (n : nat) :
  (last_char st = EOF -> getTok_times n st = (replicate n tok_eof, st)) /\
  ((unread st <= n)%nat -> last_char (snd (getTok_times n st)) = EOF).
Proof.
  split; [apply getTok_times_at_EOF|apply getTok_times_reaches_EOF].
Qed.

Lemma lexer_idempotent_at_eof_witness :
  let st := snd (getTok (initial "x")) in
  last_char st = EOF /\ getTok_times 3 st = ([tok_eof; tok_eof; tok_eof], st).
Proof.
  split; [reflexivity|].
  apply (proj1 (lexer_idempotent_at_eof (snd (getTok (initial "x"))) 3)).
  reflexivity.
Defined.

Lemma skip_space_nonspace c inp : isspace c = false -> skip_space c inp = (c, inp).
Proof. intros H. destruct inp; simpl; by rewrite H. Qed.

(** C10.  With the look-ahead a dot and the next character neither a
    digit nor a dot (or no next character), [getTok] answers [tok_number]
    with [num_val] zero, having read exactly the dot; a primary parsed
    there is the numeric literal zero. *)
Theorem lone_dot_is_number_zero (st : state) :
  last_char st = code "." ->
  follows_dot (stdin st) = true ->
  fst (getTok st) = tok_number /\
  num_val (snd (getTok st)) = S754_zero false /\
  last_char (snd (getTok st)) = fst (getchar (stdin st)) /\
  stdin (snd (getTok st)) = snd (getchar (stdin st)) /\
  parsePrimary 1 (snd (getNextToken st)) =
    Some (Some (NumberExprAST 0),
          snd (getNextToken (snd (getNextToken st)))).
Proof.
  intros Hc Hf.
  assert (getTok st = (tok_number,
            with_num (with_lexer st (fst (getchar (stdin st)))
                                    (snd (getchar (stdin st)))) (S754_zero false))) as E.
  { unfold getTok. rewrite Hc.
    rewrite skip_space_nonspace by reflexivity.
    change (isalpha (code ".")) with false.
    change (isdigit (code ".") || (code "." =? 46)) with true.
    cbv iota beta.
    destruct (stdin st) as [|a rest]; [reflexivity|].
    simpl in Hf. apply negb_true_iff in Hf.
    change (code ".") with 46 in Hf.
    simpl. rewrite Hf. reflexivity. }
  unfold getNextToken. rewrite E. simpl. repeat split.
Qed.

Lemma lone_dot_is_number_zero_witness :
  let st := snd (getTok (initial "x.+1")) in
  last_char st = code "." /\ follows_dot (stdin st) = true /\
  fst (getTok st) = tok_number /\ num_val (snd (getTok st)) = S754_zero false.
Proof.
  split; [reflexivity|]. split; [reflexivity|].
  destruct (lone_dot_is_number_zero (snd (getTok (initial "x.+1"))))
    as (H1 & H2 & _); [reflexivity|reflexivity|].
  exact (conj H1 H2).
Defined.

Lemma returns_of_run {A} (p : nat -> state -> parser A) fuel st r :
  fst <$> p fuel st = Some r -> exists st', returns p st r st'.
Proof.
  destruct (p fuel st) as [[r' st']|] eqn:E; [|done].
  intros [= <-]. exists st', fuel. done.
Qed.

Lemma three_operand_shape (o1 o2 : ascii) :
  In o1 binops -> In o2 binops ->
  fst <$> parseExpression 12 (start (three_operands o1 o2)) =
  Some (Some (if precedence_of main_table (code o1) <? precedence_of main_table (code o2)
              then right_nested o1 o2 else left_nested o1 o2)).
Proof.
  intros H1 H2. unfold binops in H1, H2. simpl in H1, H2.
  destruct H1 as [<-|[<-|[<-|[<-|[]]]]]; destruct H2 as [<-|[<-|[<-|[<-|[]]]]];
    vm_compute; reflexivity.
Qed.

(** C1.  [1+2*3] parses to [+(1, *(2, 3))]; the table gives [*] precedence
    40 and [+] 20; and for any two registered operators the right operand
    is absorbed by the second operator exactly when the second binds
    strictly tighter than the first. *)
Theorem precedence_binds_tighter :
  (exists st',
     returns parseExpression (start "1+2*3")
       (Some (BinaryExprAST (code "+") (NumberExprAST 1)
                (BinaryExprAST (code "*") (NumberExprAST 2) (NumberExprAST 3)))) st'
     /\ cur_tok st' = tok_eof) /\
  fst (getTokPrecedence (with_tok (start "") (code "*"))) = 40 /\
  fst (getTokPrecedence (with_tok (start "") (code "+"))) = 20 /\
  (forall o1 o2, In o1 binops -> In o2 binops ->
     precedence_of main_table (code o1) < precedence_of main_table (code o2) ->
     exists st', returns parseExpression (start (three_operands o1 o2))
                   (Some (right_nested o1 o2)) st') /\
  (forall o1 o2, In o1 binops -> In o2 binops ->
     precedence_of main_table (code o2) <= precedence_of main_table (code o1) ->
     exists st', returns parseExpression (start (three_operands o1 o2))
                   (Some (left_nested o1 o2)) st').
Proof.
  split; [|split; [reflexivity|split; [reflexivity|split]]].
  - eexists. split; [exists 12%nat; vm_compute; reflexivity|reflexivity].
  - intros o1 o2 H1 H2 Hlt. apply (returns_of_run _ 12%nat).
    rewrite (three_operand_shape o1 o2 H1 H2).
    apply Z.ltb_lt in Hlt. by rewrite Hlt.
  - intros o1 o2 H1 H2 Hle. apply (returns_of_run _ 12%nat).
    rewrite (three_operand_shape o1 o2 H1 H2).
    apply Z.ltb_ge in Hle. by rewrite Hle.
Qed.

Lemma precedence_binds_tighter_witness :
  exists st', returns parseExpression (start (three_operands "<" "-"))
                (Some (right_nested "<" "-")) st'.
Proof.
  destruct precedence_binds_tighter as (_ & _ & _ & H & _).
  apply (H "<"%char "-"%char); [simpl; tauto|simpl; tauto|reflexivity].
Defined.

Lemma eqb_code_true (t c : Z) : t = c -> (t =? c) = true.
Proof. apply Z.eqb_eq. Qed.

Lemma eqb_code_false (t c : Z) : t <> c -> (t =? c) = false.
Proof. apply Z.eqb_neq. Qed.

(** C3.  [parseParenExpr] skips the current token, parses an expression,
    and then: with [')'] current it skips it and returns the very tree
    the inner parse returned; with anything else current it reports
    "expected ')'" and returns no node; a failed inner parse is passed
    on.  [(1+2)*3] parses to [*(+(1, 2), 3)] and [(1+2] to no node. *)
Theorem parseParenExpr_returns_inner (st : state) :
  (forall v st1,
     returns parseExpression (advance st) (Some v) st1 ->
     cur_tok st1 = code ")" ->
     returns parseParenExpr st (Some v) (advance st1)) /\
  (forall v st1,
     returns parseExpression (advance st) (Some v) st1 ->
     cur_tok st1 <> code ")" ->
     returns parseParenExpr st None (logError "expected ')'" st1)) /\
  (forall st1,
     returns parseExpression (advance st) None st1 ->
     returns parseParenExpr st None st1) /\
  (forall v st',
     returns parseParenExpr st (Some v) st' ->
     exists st1, returns parseExpression (advance st) (Some v) st1 /\
                 cur_tok st1 = code ")" /\ st' = advance st1) /\
  (exists st',
     returns parseExpression (start "(1+2)*3")
       (Some (BinaryExprAST (code "*")
                (BinaryExprAST (code "+") (NumberExprAST 1) (NumberExprAST 2))
                (NumberExprAST 3))) st') /\
  (exists st',
     returns parseExpression (start "(1+2") None st' /\
     stderr st' = ["ready> "; "Error: expected ')'" +:+ nl]).
Proof.
  unfold advance. repeat split.
  - intros v st1 [f H] Hc. exists (S f). simpl. rewrite H.
    by rewrite (eqb_code_true _ _ Hc).
  - intros v st1 [f H] Hc. exists (S f). simpl. rewrite H.
    by rewrite (eqb_code_false _ _ Hc).
  - intros st1 [f H]. exists (S f). simpl. by rewrite H.
  - intros v st' [f H]. destruct f as [|f]; [done|]. simpl in H.
    destruct (parseExpression f _) as [[[v'|] s1]|] eqn:E; [| |done]; [|done].
    destruct (cur_tok s1 =? code ")") eqn:Ec; simpl in H; [|done].
    inversion H; subst. exists s1. apply Z.eqb_eq in Ec. repeat split; [|done].
    by exists f.
  - eexists. exists 20%nat. vm_compute. reflexivity.
  - eexists. split; [exists 20%nat; vm_compute; reflexivity|reflexivity].
Qed.

Lemma parseParenExpr_returns_inner_witness :
  exists st', returns parseParenExpr (start "(7)") (Some (NumberExprAST 7)) st'.
Proof.
  eexists.
  eapply (proj1 (parseParenExpr_returns_inner (start "(7)"))).
  - exists 3%nat. vm_compute. reflexivity.
  - reflexivity.
Defined.

(** C4.  [parseIdentifierExpr] skips the identifier; if ['('] does not
    follow it returns a variable reference; if ["()"] follows, a call
    without arguments; otherwise it runs the argument loop, which after
    each argument stops at [')'], goes on after [','], and fails on
    anything else, appending each argument behind those already read.
    [foo(1, x)] and [foo()] parse to the calls the claim names. *)
Theorem parseIdentifierExpr_variable_or_call (st : state) :
  let id_name := identifier_str st in
  let st0 := advance st in
  let st1 := advance st0 in
  (cur_tok st0 <> code "(" ->
     returns parseIdentifierExpr st (Some (VariableExprAST id_name)) st0) /\
  (cur_tok st0 = code "(" -> cur_tok st1 = code ")" ->
     returns parseIdentifierExpr st (Some (CallExprAST id_name [])) (advance st1)) /\
  (cur_tok st0 = code "(" -> cur_tok st1 <> code ")" ->
     forall args st2,
       returns (parseArgs_from []) st1 (Some args) st2 ->
       returns parseIdentifierExpr st (Some (CallExprAST id_name args)) (advance st2)) /\
  (cur_tok st0 = code "(" -> cur_tok st1 <> code ")" ->
     forall st2,
       returns (parseArgs_from []) st1 None st2 ->
       returns parseIdentifierExpr st None st2) /\
  (forall acc s arg s1,
     returns parseExpression s (Some arg) s1 -> cur_tok s1 = code ")" ->
     returns (parseArgs_from acc) s (Some (acc ++ [arg])) s1) /\
  (forall acc s arg s1 r s',
     returns parseExpression s (Some arg) s1 -> cur_tok s1 = code "," ->
     returns (parseArgs_from (acc ++ [arg])) (advance s1) r s' ->
     returns (parseArgs_from acc) s r s') /\
  (forall acc s arg s1,
     returns parseExpression s (Some arg) s1 ->
     cur_tok s1 <> code ")" -> cur_tok s1 <> code "," ->
     returns (parseArgs_from acc) s None
       (logError "Expected ')' or ',' in argument list" s1)) /\
  (forall acc s s1,
     returns parseExpression s None s1 -> returns (parseArgs_from acc) s None s1) /\
  (forall acc s args s',
     returns (parseArgs_from acc) s (Some args) s' ->
     exists more, args = acc ++ more /\ more <> []) /\
  (exists st',
     returns parseExpression (start "foo(1, x)")
       (Some (CallExprAST "foo" [NumberExprAST 1; VariableExprAST "x"])) st') /\
  (exists st',
     returns parseExpression (start "foo()") (Some (CallExprAST "foo" [])) st').
Proof.
  unfold advance, parseArgs_from. cbv zeta. repeat split.
  - intros Hc. exists 1%nat. simpl. by rewrite (eqb_code_false _ _ Hc).
  - intros Hc Hc'. exists 1%nat. simpl.
    by rewrite (eqb_code_true _ _ Hc), (eqb_code_true _ _ Hc').
  - intros Hc Hc' args st2 [f H]. exists (S f). simpl.
    by rewrite (eqb_code_true _ _ Hc), (eqb_code_false _ _ Hc'), H.
  - intros Hc Hc' st2 [f H]. exists (S f). simpl.
    by rewrite (eqb_code_true _ _ Hc), (eqb_code_false _ _ Hc'), H.
  - intros acc s arg s1 [f H] Hc. exists (S f). simpl.
    by rewrite H, (eqb_code_true _ _ Hc).
  - intros acc s arg s1 r s' [f H] Hc [f' H'].
    assert (cur_tok s1 <> code ")") as Hn by (rewrite Hc; compute; congruence).
    exists (S (max f f')). simpl.
    rewrite (parseExpression_mono f (max f f') _ _ ltac:(lia) H).
    rewrite (eqb_code_false _ _ Hn), (eqb_code_true _ _ Hc). simpl.
    by apply (parseArgs_mono _ f' (max f f') _ _ ltac:(lia)).
  - intros acc s arg s1 [f H] Hc Hc'. exists (S f). simpl.
    by rewrite H, (eqb_code_false _ _ Hc), (eqb_code_false _ _ Hc').
  - intros acc s s1 [f H]. exists (S f). simpl. by rewrite H.
  - intros acc s args s' [f H]. revert acc s H.
    induction f as [|f IH]; intros acc s H; [done|]. simpl in H.
    destruct (parseExpression f s) as [[[arg|] s1]|]; [| |done]; [|done].
    destruct (_ =? _).
    { inversion H; subst. exists [arg]. split; [done|]. done. }
    destruct (negb _); [done|].
    apply IH in H as (more & -> & _). exists (arg :: more).
    split; [by rewrite <- app_assoc|done].
  - eexists. exists 20%nat. vm_compute. reflexivity.
  - eexists. exists 20%nat. vm_compute. reflexivity.
Qed.

Lemma parseIdentifierExpr_variable_or_call_witness :
  returns parseIdentifierExpr (start "x+1") (Some (VariableExprAST "x"))
    (advance (start "x+1")).
Proof.
  apply (proj1 (parseIdentifierExpr_variable_or_call (start "x+1"))).
  vm_compute. congruence.
Defined.

Lemma getTok_frame (st : state) :
  let st' := snd (getTok st) in
  stderr st' = stderr st /\ cur_tok st' = cur_tok st /\
  BinopPrecedence st' = BinopPrecedence st.
Proof.
  unfold getTok. destruct (skip_space _ _) as [c inp].
  destruct (isalpha c).
  { destruct (read_ident _ _) as [[id c'] inp']. by repeat case_match. }
  destruct (isdigit c || (c =? 46)).
  { by destruct (read_number _ _ _) as [[s c'] inp']. }
  destruct (c =? EOF); [done|]. by destruct (getchar inp).
Qed.

Lemma getNextToken_frame (st : state) :
  stderr (advance st) = stderr st /\
  BinopPrecedence (advance st) = BinopPrecedence st.
Proof.
  unfold advance, getNextToken.
  pose proof (getTok_frame st) as F. destruct (getTok st) as [t st'].
  simpl in *. by destruct F as (-> & _ & ->).
Qed.

(** ** The precedence table *)

Lemma oza_refl a : only_zero_added a a.
Proof. intros k. by left. Qed.

Lemma oza_same_table a b :
  BinopPrecedence b = BinopPrecedence a -> only_zero_added a b.
Proof. intros H k. left. by rewrite H. Qed.

Lemma oza_trans a b c :
  only_zero_added a b -> only_zero_added b c -> only_zero_added a c.
Proof.
  intros H1 H2 k. destruct (H1 k) as [E1|[E1 E1']], (H2 k) as [E2|[E2 E2']].
  - left. congruence.
  - right. split; congruence.
  - right. split; congruence.
  - congruence.
Qed.

Lemma getTokPrecedence_table (st : state) :
  (isascii (cur_tok st) = false -> snd (getTokPrecedence st) = st) /\
  (isascii (cur_tok st) = true ->
   BinopPrecedence st !! cur_tok st <> None -> snd (getTokPrecedence st) = st) /\
  (isascii (cur_tok st) = true ->
   BinopPrecedence st !! cur_tok st = None ->
   snd (getTokPrecedence st) =
     with_table st (<[cur_tok st := 0]> (BinopPrecedence st))).
Proof.
  unfold getTokPrecedence. repeat split; intros Ha; rewrite Ha; simpl; [done| |].
  - intros Hl. rewrite (char_of_int_ascii _ Ha). unfold subscript.
    destruct (BinopPrecedence st !! cur_tok st) as [v|]; [|done].
    destruct st. by destruct (v <=? 0).
  - intros Hl. rewrite (char_of_int_ascii _ Ha). unfold subscript. by rewrite Hl.
Qed.

Lemma oza_prec (st : state) : only_zero_added st (snd (getTokPrecedence st)).
Proof.
  destruct (getTokPrecedence_table st) as (H1 & H2 & H3).
  destruct (isascii (cur_tok st)); [|rewrite H1 by done; apply oza_refl].
  destruct (BinopPrecedence st !! cur_tok st) eqn:E.
  - rewrite H2 by done. apply oza_refl.
  - rewrite H3 by done. intros k. simpl.
    destruct (decide (k = cur_tok st)) as [->|Hne].
    + right. by rewrite lookup_insert_eq.
    + left. by rewrite lookup_insert_ne.
Qed.

Lemma oza_precedence_of a b k :
  only_zero_added a b ->
  precedence_of (BinopPrecedence b) k = precedence_of (BinopPrecedence a) k.
Proof.
  intros H. unfold precedence_of. by destruct (H k) as [->|[-> ->]].
Qed.

Lemma oza_parse (fuel : nat) :
  keeps only_zero_added (parseExpression fuel) /\
  keeps only_zero_added (parsePrimary fuel) /\
  keeps only_zero_added (parseParenExpr fuel) /\
  keeps only_zero_added (parseIdentifierExpr fuel) /\
  (forall args, keeps only_zero_added (parseArgs fuel args)) /\
  (forall expr_prec lhs, keeps only_zero_added (parseBinOpRHS fuel expr_prec lhs)).
Proof.
  apply parse_keeps.
  - apply oza_trans.
  - intros st. apply oza_same_table, getNextToken_frame.
  - apply oza_prec.
  - intros msg st. by apply oza_same_table.
Qed.

Lemma oza_mainLoop fuel st st' :
  mainLoop fuel st = Some st' -> only_zero_added st st'.
Proof.
  apply mainLoop_keeps.
  - apply oza_trans.
  - intros s. apply oza_same_table, getNextToken_frame.
  - apply oza_prec.
  - intros msg s. by apply oza_same_table.
  - intros msg s. by apply oza_same_table.
Qed.

Lemma start_table (inp : string) : BinopPrecedence (start inp) = main_table.
Proof.
  unfold start. fold (advance (fprintf "ready> " (install_binops (initial inp)))).
  by rewrite (proj2 (getNextToken_frame _)).
Qed.




(** ** Operators of the trees the parser builds *)

Lemma main_table_entries :
  main_table = <[code "*" := 40]> (<[code "-" := 20]> (<[code "+" := 20]>
                 (<[code "<" := 10]> ∅))).
Proof. reflexivity. Qed.

Lemma main_table_positive k : 0 < precedence_of main_table k -> is_binop k = true.
Proof.
  unfold precedence_of, is_binop.
  destruct (decide (k = code "<")) as [->|H1]; [done|].
  destruct (decide (k = code "+")) as [->|H2]; [done|].
  destruct (decide (k = code "-")) as [->|H3]; [done|].
  destruct (decide (k = code "*")) as [->|H4]; [done|].
  rewrite main_table_entries.
  rewrite !lookup_insert_ne, lookup_empty by done. simpl. lia.
Qed.

Lemma table_as_installed_oza a b :
  table_as_installed a -> only_zero_added a b -> table_as_installed b.
Proof.
  intros Ha Hab k. rewrite (oza_precedence_of a b k Hab). apply Ha.
Qed.

Lemma operator_when_positive (st : state) p st' :
  table_as_installed st ->
  getTokPrecedence st = (p, st') -> 0 <= p ->
  is_binop (char_of_int (cur_tok st')) = true.
Proof.
  intros Ht H Hp.
  apply getTokPrecedence_result in H as (Hc & _ & [->|(Hpos & Ha & Hl)]); [lia|].
  rewrite Hc, (char_of_int_ascii _ Ha). apply main_table_positive.
  rewrite <- Ht. unfold precedence_of. by rewrite Hl.
Qed.

Lemma forallb_snoc {A} (f : A -> bool) l x :
  forallb f (l ++ [x]) = forallb f l && f x.
Proof. rewrite forallb_app. simpl. by rewrite andb_true_r. Qed.

Lemma parse_ops (fuel : nat) : forall st, table_as_installed st ->
  (forall e st', parseExpression fuel st = Some (Some e, st') ->
                 binary_ops_registered e = true) /\
  (forall e st', parsePrimary fuel st = Some (Some e, st') ->
                 binary_ops_registered e = true) /\
  (forall e st', parseParenExpr fuel st = Some (Some e, st') ->
                 binary_ops_registered e = true) /\
  (forall e st', parseIdentifierExpr fuel st = Some (Some e, st') ->
                 binary_ops_registered e = true) /\
  (forall args args' st',
     forallb binary_ops_registered args = true ->
     parseArgs fuel args st = Some (Some args', st') ->
     forallb binary_ops_registered args' = true) /\
  (forall expr_prec lhs e st',
     0 <= expr_prec -> binary_ops_registered lhs = true ->
     parseBinOpRHS fuel expr_prec lhs st = Some (Some e, st') ->
     binary_ops_registered e = true).
Proof.
  induction fuel as [|f IH]; [by repeat split; intros|].
  destruct (oza_parse f) as (Ke & Kp & Kpar & Kid & Kargs & Kbin).
  assert (Hnext : forall s, table_as_installed s -> table_as_installed (advance s)).
  { intros s Hs. apply (table_as_installed_oza s); [done|].
    apply oza_same_table, getNextToken_frame. }
  unfold advance in Hnext.
  intros st Ht. repeat split.
  - intros e st' H. simpl in H.
    destruct (parsePrimary f st) as [[[lhs|] s1]|] eqn:E; [| |done]; [|done].
    pose proof (table_as_installed_oza _ _ Ht (Kp _ _ _ E)) as Ht1.
    apply (IH st Ht) in E.
    by apply (proj2 (proj2 (proj2 (proj2 (proj2 (IH s1 Ht1))))) 0 lhs e st').
  - intros e st' H. simpl in H. unfold parseNumberExpr in H.
    destruct (_ =? _); [by apply (IH st Ht) in H|].
    destruct (_ =? _); [by inversion H|].
    destruct (_ =? _); [by apply (IH st Ht) in H|done].
  - intros e st' H. simpl in H.
    destruct (parseExpression f _) as [[[v|] s1]|] eqn:E; [| |done]; [|done].
    apply (IH _ (Hnext _ Ht)) in E.
    destruct (negb _); [done|]. by inversion H; subst.
  - intros e st' H. simpl in H.
    destruct (negb _); [by inversion H|].
    destruct (negb _); [|by inversion H].
    destruct (parseArgs f _ _) as [[[args|] s1]|] eqn:E; [| |done]; [|done].
    apply (IH _ (Hnext _ (Hnext _ Ht))) in E; [|done].
    by inversion H; subst.
  - intros args args' st' Hargs H. simpl in H.
    destruct (parseExpression f st) as [[[arg|] s1]|] eqn:E; [| |done]; [|done].
    pose proof (table_as_installed_oza _ _ Ht (Ke _ _ _ E)) as Ht1.
    apply (IH st Ht) in E.
    assert (forallb binary_ops_registered (args ++ [arg]) = true) as Hall.
    { rewrite forallb_snoc, Hargs, E. done. }
    destruct (_ =? _); [by inversion H; subst|].
    destruct (negb _); [done|].
    by apply (IH _ (Hnext _ Ht1)) in H.
  - intros expr_prec lhs e st' Hprec Hlhs H. simpl in H.
    destruct (getTokPrecedence st) as [tok_prec s1] eqn:E0.
    pose proof (oza_prec st) as K0. rewrite E0 in K0. simpl in K0.
    pose proof (table_as_installed_oza _ _ Ht K0) as Ht1.
    destruct (tok_prec <? expr_prec) eqn:Elt; [by inversion H; subst|].
    apply Z.ltb_ge in Elt.
    pose proof (operator_when_positive _ _ _ Ht E0 ltac:(lia)) as Hop.
    destruct (parsePrimary f _) as [[[rhs|] s3]|] eqn:E; [| |done]; [|done].
    pose proof (table_as_installed_oza _ _ (Hnext _ Ht1) (Kp _ _ _ E)) as Ht3.
    apply (IH _ (Hnext _ Ht1)) in E.
    destruct (getTokPrecedence s3) as [next_prec s4] eqn:E1.
    pose proof (oza_prec s3) as K3. rewrite E1 in K3. simpl in K3.
    pose proof (table_as_installed_oza _ _ Ht3 K3) as Ht4.
    destruct (tok_prec <? next_prec).
    + destruct (parseBinOpRHS f _ _ _) as [[[rhs'|] s5]|] eqn:E'; [| |done]; [|done].
      pose proof (table_as_installed_oza _ _ Ht4 (Kbin _ _ _ _ _ E')) as Ht5.
      apply (IH _ Ht4) in E'; [|lia|done].
      apply (IH _ Ht5) in H; [done|done|]. simpl. by rewrite Hop, Hlhs, E'.
    + apply (IH _ Ht4) in H; [done|done|]. simpl. by rewrite Hop, Hlhs, E.
Qed.

Lemma start_table_as_installed (inp : string) : table_as_installed (start inp).
Proof. intros k. by rewrite start_table. Qed.

(** C9.  While the table is the one [main] installs (up to zero entries,
    which is the case all along a run), every binary node of a tree that
    [parseExpression] returns, and of the body of a definition or of a
    top-level expression, has one of ['<'], ['+'], ['-'], ['*'] as its
    operator. *)
Theorem binary_nodes_hold_registered_operators (st : state) :
  table_as_installed st ->
  (forall e st', returns parseExpression st (Some e) st' ->
                 binary_ops_registered e = true) /\
  (forall fn st', returns parseTopLevelExpr st (Some fn) st' ->
                  binary_ops_registered (body fn) = true) /\
  (forall fn st', returns parseDefinition st (Some fn) st' ->
                  binary_ops_registered (body fn) = true) /\
  (forall c, is_binop c = true <->
             c = code "<" \/ c = code "+" \/ c = code "-" \/ c = code "*") /\
  (forall inp fuel st1, mainLoop fuel (start inp) = Some st1 ->
                        table_as_installed st1).
Proof.
  intros Ht. repeat split.
  - intros e st' [f H]. by apply (parse_ops f st Ht) in H.
  - intros fn st' [f H]. unfold parseTopLevelExpr in H.
    destruct (parseExpression f st) as [[[e|] s1]|] eqn:E; [| |done]; [|done].
    inversion H; subst. simpl. by apply (parse_ops f st Ht) in E.
  - intros fn st' [f H]. unfold parseDefinition in H.
    destruct (parsePrototype f _) as [[[p|] s1]|] eqn:Ep; [| |done]; [|done].
    destruct (parseExpression f s1) as [[[e|] s2]|] eqn:E; [| |done]; [|done].
    inversion H; subst. simpl.
    assert (table_as_installed s1) as Ht1.
    { apply (table_as_installed_oza (advance st)).
      - apply (table_as_installed_oza st); [done|].
        apply oza_same_table, getNextToken_frame.
      - revert Ep. apply parsePrototype_keeps.
        + apply oza_trans.
        + intros s. apply oza_same_table, getNextToken_frame.
        + intros msg s. by apply oza_same_table. }
    by apply (parse_ops f s1 Ht1) in E.
  - unfold is_binop. rewrite !orb_true_iff, !Z.eqb_eq. tauto.
  - unfold is_binop. rewrite !orb_true_iff, !Z.eqb_eq. tauto.
  - intros inp fuel st1 H. apply (table_as_installed_oza (start inp)).
    + apply start_table_as_installed.
    + by apply oza_mainLoop in H.
Qed.

Lemma binary_nodes_hold_registered_operators_witness :
  binary_ops_registered
    (BinaryExprAST (code "<") (VariableExprAST "a") (NumberExprAST 2)) = true.
Proof.
  destruct (binary_nodes_hold_registered_operators (start "a<2")
              (start_table_as_installed "a<2")) as (H & _).
  eapply H. exists 5%nat. vm_compute. reflexivity.
Defined.

(** ** Failures and recovery *)

Lemma oep_same a b : stderr b = stderr a -> only_errors_printed a b.
Proof. intros H. exists []. by rewrite H, app_nil_r. Qed.

Lemma oep_trans a b c :
  only_errors_printed a b -> only_errors_printed b c -> only_errors_printed a c.
Proof.
  intros (e1 & H1 & F1) (e2 & H2 & F2). exists (e1 ++ e2).
  rewrite H2, H1, app_assoc. split; [done|]. by apply Forall_app.
Qed.

Lemma oep_error msg st : only_errors_printed st (logError msg st).
Proof.
  exists ["Error: " +:+ msg +:+ nl]. split; [done|].
  apply Forall_cons. split; [by exists msg|done].
Qed.

Lemma oep_next st : only_errors_printed st (snd (getNextToken st)).
Proof. apply oep_same. apply (getNextToken_frame st). Qed.

Lemma oep_prec st : only_errors_printed st (snd (getTokPrecedence st)).
Proof. apply oep_same. apply (getTokPrecedence_frame st). Qed.

Lemma oep_parseExpression fuel : keeps only_errors_printed (parseExpression fuel).
Proof.
  apply parseExpression_keeps;
    [apply oep_trans | apply oep_next | apply oep_prec | apply oep_error].
Qed.







(** ** The driver loop *)

(** C7.  From every state the loop returns, and it returns only with
    [tok_eof] current.  With [tok_eof] current it returns at once; with
    any other token current one dispatch is made, which returns, leaves
    strictly fewer tokens unconsumed, and is followed by the rest of the
    loop. *)
Theorem mainLoop_stops_at_eof_and_progresses (st : state) :
  (exists st', runs mainLoop st st' /\ cur_tok st' = tok_eof) /\
  (forall st', runs mainLoop st st' -> cur_tok st' = tok_eof) /\
  (cur_tok st = tok_eof ->
     forall fuel, mainLoop (S fuel) st = Some (fprintf "ready> " st)) /\
  (cur_tok st <> tok_eof ->
     (exists st1, runs dispatch (fprintf "ready> " st) st1) /\
     (forall fuel st1,
        dispatch fuel (fprintf "ready> " st) = Some st1 ->
        (remaining st1 < remaining st)%nat /\
        mainLoop (S fuel) st = mainLoop fuel st1)).
Proof.
  split; [|split; [|split]].
  - destruct (mainLoop_total (4 * remaining st + 5) st) as [st' H]; [lia|].
    exists st'. split; [by eexists|]. by apply mainLoop_stops_at_eof in H.
  - intros st' [f H]. by apply mainLoop_stops_at_eof in H.
  - intros Heof fuel. simpl. by rewrite Heof.
  - intros Hne. split.
    + destruct (dispatch_total (4 * remaining st + 4) (fprintf "ready> " st))
        as [st1 E]; [rewrite remaining_fprintf; lia|].
      exists st1. by eexists.
    + intros fuel st1 Hd. split.
      * apply dispatch_progress in Hd; [|done].
        by rewrite remaining_fprintf in Hd.
      * simpl. apply Z.eqb_neq in Hne. by rewrite Hne, Hd.
Qed.

Lemma mainLoop_stops_at_eof_and_progresses_witness :
  (remaining (advance (fprintf "ready> " (start ";"))) < remaining (start ";"))%nat.
Proof.
  destruct (mainLoop_stops_at_eof_and_progresses (start ";")) as (_ & _ & _ & H).
  destruct H as (_ & H); [vm_compute; congruence|].
  apply (H 0%nat). reflexivity.
Defined.

(** * Further properties of the lexer, the parser and the driver *)

(** ** Lexer: blanks, words, kinds of token *)

Lemma to_char_code (a : ascii) : to_char (code a) = a.
Proof.
  unfold to_char. pose proof (code_range a) as H.
  rewrite Z.mod_small by lia. unfold code.
  by rewrite N2Z.id, ascii_N_embedding.
Qed.

Lemma code_to_char (c : Z) : 0 <= c <= 255 -> code (to_char c) = c.
Proof.
  intros H. unfold to_char, code. rewrite Z.mod_small by lia.
  rewrite N_ascii_embedding by lia. lia.
Qed.

Lemma append_cons (a : ascii) (s t : string) :
  String a s +:+ t = String a (s +:+ t).
Proof. reflexivity. Qed.

Lemma append_empty_l (t : string) : "" +:+ t = t.
Proof. reflexivity. Qed.

Lemma append_empty_r (s : string) : s +:+ "" = s.
Proof. induction s as [|a s IH]; [done|]. by rewrite append_cons, IH. Qed.

Lemma append_snoc (acc : string) (a : ascii) (w : string) :
  (acc +:+ String a "") +:+ w = acc +:+ String a w.
Proof. induction acc as [|b acc IH]; [done|]. by rewrite !append_cons, IH. Qed.

Lemma skip_space_blanks (ws inp : string) (c : Z) :
  isspace c = true -> string_forallb isspace ws = true ->
  skip_space c (ws +:+ inp) = skip_space 32 inp.
Proof.
  revert c. induction ws as [|a ws IH]; intros c Hc Hws; simpl in *.
  - destruct inp; simpl; by rewrite Hc.
  - rewrite Hc. apply andb_true_iff in Hws as [Ha Hws]. by apply IH.
Qed.

Lemma getTok_lexer_only (st : state) (c : Z) (inp : string) (c' : Z) (inp' : string) :
  skip_space c inp = skip_space c' inp' ->
  getTok (with_lexer st c inp) = getTok (with_lexer st c' inp').
Proof. intros H. unfold getTok. simpl. by rewrite H. Qed.

(** X1.  A run of blanks in front of the input changes nothing: the call
    answers the same token and leaves the same state as without it.  An
    input of blanks only is the end of the input. *)
Theorem getTok_skips_blanks (st : state) (c : Z) (ws inp : string) :
  isspace c = true -> string_forallb isspace ws = true ->
  getTok (with_lexer st c (ws +:+ inp)) = getTok (with_lexer st 32 inp) /\
  getTok (with_lexer st c ws) = (tok_eof, with_lexer st EOF "").
Proof.
  intros Hc Hws. split.
  - apply getTok_lexer_only. by apply skip_space_blanks.
  - rewrite <- (append_empty_r ws) at 1.
    rewrite (getTok_lexer_only st c (ws +:+ "") 32 "");
      [reflexivity|by apply skip_space_blanks].
Qed.

Lemma getTok_skips_blanks_witness :
  getTok (with_lexer (initial "") 9 (String " " (String "010" "") +:+ "x1+2")) =
  getTok (with_lexer (initial "") 32 "x1+2").
Proof.
  apply (proj1 (getTok_skips_blanks (initial "") 9
                  (String " " (String "010" "")) "x1+2" eq_refl eq_refl)).
Defined.

Lemma isalpha_range (c : Z) : isalpha c = true -> 65 <= c <= 122.
Proof. unfold isalpha. lia. Qed.

Lemma isalpha_not_space (c : Z) : isalpha c = true -> isspace c = false.
Proof. unfold isalpha, isspace. lia. Qed.

Lemma read_ident_word (w : string) : forall acc rest,
  string_forallb isalnum w = true -> stops isalnum rest = true ->
  read_ident acc (w +:+ rest) = (acc +:+ w, fst (getchar rest), snd (getchar rest)).
Proof.
  induction w as [|a w IH]; intros acc rest Hw Hr; simpl in *.
  - rewrite append_empty_r. destruct rest as [|b r]; simpl in *; [done|].
    apply negb_true_iff in Hr. by rewrite Hr.
  - apply andb_true_iff in Hw as [Ha Hw]. rewrite Ha.
    rewrite (IH _ _ Hw Hr), to_char_code, append_snoc. done.
Qed.

Lemma getTok_word (st : state) (a : ascii) (w rest : string) :
  isalpha (code a) = true ->
  string_forallb isalnum w = true ->
  stops isalnum rest = true ->
  getTok (with_lexer st 32 (String a w +:+ rest)) =
  (word_token (String a w),
   with_identifier (with_lexer st (fst (getchar rest)) (snd (getchar rest)))
                   (String a w)).
Proof.
  intros Ha Hw Hr. unfold getTok.
  change (skip_space (last_char (with_lexer st 32 (String a w +:+ rest)))
            (stdin (with_lexer st 32 (String a w +:+ rest))))
    with (skip_space (code a) (w +:+ rest)).
  rewrite (skip_space_nonspace _ _ (isalpha_not_space _ Ha)), Ha.
  rewrite (read_ident_word w _ rest Hw Hr), to_char_code.
  rewrite append_cons, append_empty_l.
  unfold word_token. by repeat case_match.
Qed.

(** X2.  A word (a letter, then letters and digits) followed by something
    that is not a letter or digit, or by nothing, is read whole:
    [identifier_str] is the word as written, the token is [tok_def] for
    "def", [tok_extern] for "extern" and [tok_identifier] for any other
    word, and the character after the word becomes the look-ahead. *)
Theorem getTok_reads_word (st : state) (a : ascii) (w rest : string) :
  isalpha (code a) = true ->
  string_forallb isalnum w = true ->
  stops isalnum rest = true ->
  getTok (with_lexer st 32 (String a w +:+ rest)) =
  (word_token (String a w),
   with_identifier (with_lexer st (fst (getchar rest)) (snd (getchar rest)))
                   (String a w)).
Proof. apply getTok_word. Qed.

Lemma getTok_reads_word_witness :
  getTok (with_lexer (initial "") 32 ("x1" +:+ "+2")) =
  (tok_identifier, with_identifier (with_lexer (initial "") (code "+") "2") "x1").
Proof.
  apply (getTok_reads_word (initial "") "x" "1" "+2"); reflexivity.
Defined.

Lemma skip_space_lookahead (inp : string) : forall c c' inp',
  skip_space c inp = (c', inp') ->
  (c = EOF \/ 0 <= c <= 255) -> (c' = EOF \/ 0 <= c' <= 255).
Proof.
  induction inp as [|a rest IH]; intros c c' inp' H Hc; simpl in H.
  - destruct (isspace c); inversion H; subst; auto.
  - destruct (isspace c).
    + apply IH in H; [done|]. right. apply code_range.
    + inversion H; subst; auto.
Qed.

(** What the word loop leaves: the letters and digits it appended, and a
    look-ahead that is no letter or digit. *)
Lemma read_ident_text (inp : string) : forall acc id c' inp',
  read_ident acc inp = (id, c', inp') ->
  (exists w, id = acc +:+ w /\ string_forallb isalnum w = true) /\
  isalnum c' = false /\ (c' = EOF \/ 0 <= c' <= 255).
Proof.
  induction inp as [|a rest IH]; intros acc id c' inp' H; simpl in H.
  - inversion H; subst. split; [exists ""; by rewrite append_empty_r|]. auto.
  - destruct (isalnum (code a)) eqn:Ea.
    + apply IH in H as ((w & -> & Hw) & Hc & Hr). split; [|done].
      exists (String a w). rewrite to_char_code, append_snoc.
      split; [done|]. simpl. by rewrite Ea.
    + inversion H; subst. split; [exists ""; by rewrite append_empty_r|].
      split; [done|]. right. apply code_range.
Qed.

Lemma read_number_stop (inp : string) : forall acc c s c' inp',
  read_number acc c inp = (s, c', inp') ->
  isdigit c' || (c' =? 46) = false /\ (c' = EOF \/ 0 <= c' <= 255).
Proof.
  induction inp as [|a rest IH]; intros acc c s c' inp' H; simpl in H.
  - inversion H; subst. auto.
  - destruct (isdigit (code a) || (code a =? 46)) eqn:Ea.
    + by apply IH in H.
    + inversion H; subst. split; [done|]. right. apply code_range.
Qed.

Lemma getTok_kinds (st : state) (t : Z) (st' : state) :
  lookahead_ok st ->
  getTok st = (t, st') ->
  lookahead_ok st' /\
  (t = tok_eof \/ t = tok_def \/ t = tok_extern \/ t = tok_identifier \/
   t = tok_number \/
   (0 <= t <= 255 /\ isspace t = false /\ isalnum t = false /\ t <> code ".")).
Proof.
  unfold lookahead_ok, getTok. intros Hok.
  destruct (skip_space _ _) as [c inp] eqn:Hs.
  pose proof (skip_space_lookahead _ _ _ _ Hs Hok) as Hc.
  apply skip_space_left in Hs as (_ & Hsp & _).
  destruct (isalpha c) eqn:Ha.
  { destruct (read_ident _ inp) as [[id c'] inp'] eqn:Hr.
    apply read_ident_text in Hr as (_ & _ & Hc').
    repeat case_match; intros [= <- <-]; simpl; split; auto 6. }
  destruct (isdigit c || (c =? 46)) eqn:Hd.
  { destruct (read_number _ c inp) as [[s c'] inp'] eqn:Hr.
    apply read_number_stop in Hr as (_ & Hc').
    intros [= <- <-]; simpl; split; auto 6. }
  destruct (c =? EOF) eqn:He.
  { intros [= <- <-]; simpl; split; auto. }
  apply Z.eqb_neq in He. destruct Hc as [?|Hc]; [done|].
  assert (fst (getchar inp) = EOF \/ 0 <= fst (getchar inp) <= 255) as Hg.
  { destruct inp; simpl; [by left|right; apply code_range]. }
  destruct (getchar inp) as [c' inp']. intros [= <- <-]. simpl in *.
  split; [done|]. do 5 right. repeat split; try lia; try done.
  - unfold isalnum. rewrite Ha. simpl.
    apply orb_false_iff in Hd as [Hd _]. done.
  - apply orb_false_iff in Hd as [_ Hd]. apply Z.eqb_neq in Hd. done.
Qed.

(** X3.  With a look-ahead that [getchar] can have answered, the token is
    one of the five of [enum Token] or the code of a single character that
    is no blank, no letter, no digit and no dot; and the look-ahead left
    behind is again one [getchar] can have answered. *)
Theorem getTok_token_kinds (st : state) (t : Z) (st' : state) :
  lookahead_ok st ->
  getTok st = (t, st') ->
  lookahead_ok st' /\
  (t = tok_eof \/ t = tok_def \/ t = tok_extern \/ t = tok_identifier \/
   t = tok_number \/
   (0 <= t <= 255 /\ isspace t = false /\ isalnum t = false /\ t <> code ".")).
Proof. apply getTok_kinds. Qed.

Lemma getTok_token_kinds_witness :
  lookahead_ok (snd (getTok (initial "(a)"))) /\
  (fst (getTok (initial "(a)")) = code "(").
Proof.
  destruct (getTok_token_kinds (initial "(a)") (code "(")
              (with_lexer (initial "(a)") (code "a") ")")) as (H & _).
  - right. vm_compute. split; congruence.
  - reflexivity.
  - split; [exact H|reflexivity].
Defined.

Lemma getTok_words (st : state) (t : Z) (st' : state) :
  lookahead_ok st ->
  getTok st = (t, st') ->
  (t = tok_def -> identifier_str st' = "def") /\
  (t = tok_extern -> identifier_str st' = "extern") /\
  (t = tok_identifier -> is_name (identifier_str st')) /\
  (t = tok_def \/ t = tok_extern \/ t = tok_identifier ->
     isalnum (last_char st') = false) /\
  (t = tok_number -> isdigit (last_char st') || (last_char st' =? code ".") = false) /\
  (t <> tok_def -> t <> tok_extern -> t <> tok_identifier ->
     identifier_str st' = identifier_str st) /\
  (t <> tok_number -> num_val st' = num_val st).
Proof.
  intros Hok. unfold getTok.
  destruct (skip_space _ _) as [c inp] eqn:Hs.
  destruct (isalpha c) eqn:Ha.
  { destruct (read_ident _ inp) as [[id c'] inp'] eqn:Hr.
    apply read_ident_text in Hr as ((w & -> & Hw) & Hc' & _).
    pose proof (isalpha_range _ Ha) as Hrange.
    assert (is_identifier_text (String (to_char c) "" +:+ w) = true) as Hid.
    { rewrite append_cons, append_empty_l. simpl.
      rewrite code_to_char by lia. by rewrite Ha, Hw. }
    destruct (String.eqb _ "def") eqn:E1.
    { apply String.eqb_eq in E1. intros [= <- <-]. simpl. by repeat split. }
    destruct (String.eqb _ "extern") eqn:E2.
    { apply String.eqb_eq in E2. intros [= <- <-]. simpl. by repeat split. }
    apply String.eqb_neq in E1, E2.
    intros [= <- <-]. simpl. by repeat split. }
  destruct (isdigit c || (c =? 46)) eqn:Hd.
  { destruct (read_number _ c inp) as [[s c'] inp'] eqn:Hr.
    apply read_number_stop in Hr as (Hstop & _).
    intros [= <- <-]. simpl. repeat split; try done. by intros [?|[?|?]]. }
  destruct (c =? EOF) eqn:He.
  { intros [= <- <-]. simpl. repeat split; try done. by intros [?|[?|?]]. }
  destruct (getchar inp) as [c' inp']. intros [= <- <-]. simpl.
  assert (0 <= c <= 255) as Hc.
  { destruct (skip_space_lookahead _ _ _ _ Hs Hok) as [E|Hc]; [|done].
    apply Z.eqb_neq in He. done. }
  unfold tok_def, tok_extern, tok_identifier, tok_number.
  repeat split; try done; try lia.
Qed.

(** X4.  What a word or number token guarantees.  After [tok_def] the
    word is "def", after [tok_extern] it is "extern", after
    [tok_identifier] it is an identifier that is neither; the longest
    match was taken, so the look-ahead after a word is no letter or digit
    and after a number no digit or dot; and a token of another kind leaves
    [identifier_str], respectively [num_val], as it was. *)
Theorem getTok_word_and_number_tokens (st : state) (t : Z) (st' : state) :
  lookahead_ok st ->
  getTok st = (t, st') ->
  (t = tok_def -> identifier_str st' = "def") /\
  (t = tok_extern -> identifier_str st' = "extern") /\
  (t = tok_identifier -> is_name (identifier_str st')) /\
  (t = tok_def \/ t = tok_extern \/ t = tok_identifier ->
     isalnum (last_char st') = false) /\
  (t = tok_number -> isdigit (last_char st') || (last_char st' =? code ".") = false) /\
  (t <> tok_def -> t <> tok_extern -> t <> tok_identifier ->
     identifier_str st' = identifier_str st) /\
  (t <> tok_number -> num_val st' = num_val st).
Proof. apply getTok_words. Qed.

Lemma getTok_word_and_number_tokens_witness :
  is_name (identifier_str (snd (getTok (initial "foo(1)")))).
Proof.
  destruct (getTok_word_and_number_tokens (initial "foo(1)") tok_identifier
              (snd (getTok (initial "foo(1)")))) as (_ & _ & H & _).
  - right. vm_compute. split; congruence.
  - reflexivity.
  - apply H. reflexivity.
Defined.

(** ** The precedence query *)

Lemma getTokPrecedence_value (st : state) :
  fst (getTokPrecedence st) =
  if isascii (cur_tok st) && (0 <? precedence_of (BinopPrecedence st) (cur_tok st))
  then precedence_of (BinopPrecedence st) (cur_tok st) else -1.
Proof.
  unfold getTokPrecedence, precedence_of.
  destruct (isascii (cur_tok st)) eqn:Ea; simpl; [|done].
  rewrite (char_of_int_ascii _ Ea). unfold subscript.
  destruct (BinopPrecedence st !! cur_tok st) as [v|]; simpl; [|done].
  destruct (v <=? 0) eqn:E1, (0 <? v) eqn:E2; simpl; try done; lia.
Qed.

Lemma getTokPrecedence_again (st : state) :
  getTokPrecedence (snd (getTokPrecedence st)) = getTokPrecedence st.
Proof.
  destruct (getTokPrecedence_table st) as (H1 & H2 & H3).
  destruct (isascii (cur_tok st)) eqn:Ea; [|by rewrite H1].
  destruct (BinopPrecedence st !! cur_tok st) as [v|] eqn:El;
    [by rewrite H2|].
  rewrite (H3 eq_refl eq_refl).
  unfold getTokPrecedence. simpl. rewrite Ea. simpl.
  rewrite (char_of_int_ascii _ Ea). unfold subscript.
  rewrite lookup_insert_eq, El. reflexivity.
Qed.

(** X5.  The query answers the table's entry for the current token when
    the token is ASCII and the entry is positive, and -1 in every other
    case: token not ASCII, no entry, entry zero or negative.  Asking again
    gives the same answer and changes nothing any more. *)
Theorem getTokPrecedence_lookup_or_minus_one (st : state) :
  fst (getTokPrecedence st) =
    (if isascii (cur_tok st) && (0 <? precedence_of (BinopPrecedence st) (cur_tok st))
     then precedence_of (BinopPrecedence st) (cur_tok st) else -1) /\
  getTokPrecedence (snd (getTokPrecedence st)) =
    (fst (getTokPrecedence st), snd (getTokPrecedence st)).
Proof.
  split; [apply getTokPrecedence_value|].
  rewrite getTokPrecedence_again. by destruct (getTokPrecedence st).
Qed.

(** ** One diagnostic per failure *)

Lemma stderr_next (st : state) : stderr (snd (getNextToken st)) = stderr st.
Proof. apply (getNextToken_frame st). Qed.

Lemma stderr_prec (st : state) p st' :
  getTokPrecedence st = (p, st') -> stderr st' = stderr st.
Proof.
  intros H. pose proof (getTokPrecedence_frame st) as F. rewrite H in F.
  apply F.
Qed.

Lemma stderr_logError str (st : state) :
  stderr (logError str st) = stderr st ++ ["Error: " +:+ str +:+ nl].
Proof. reflexivity. Qed.

Lemma quiet_then_error a b c : quiet a b -> one_error b c -> one_error a c.
Proof. unfold quiet, one_error. intros -> [s ->]. by exists s. Qed.

Lemma quiet_then_outcome {A} a b (r : option A) c :
  quiet a b -> outcome b r c -> outcome a r c.
Proof.
  destruct r; simpl; [unfold quiet; congruence|apply quiet_then_error].
Qed.

Lemma outcome_then_next {A} a (r : A) b :
  outcome a (Some r) b -> quiet a (snd (getNextToken b)).
Proof. unfold outcome, quiet. rewrite stderr_next. done. Qed.

Lemma parse_outcome (fuel : nat) :
  (forall st r st', parseExpression fuel st = Some (r, st') -> outcome st r st') /\
  (forall st r st', parsePrimary fuel st = Some (r, st') -> outcome st r st') /\
  (forall st r st', parseParenExpr fuel st = Some (r, st') -> outcome st r st') /\
  (forall st r st', parseIdentifierExpr fuel st = Some (r, st') -> outcome st r st') /\
  (forall args st r st', parseArgs fuel args st = Some (r, st') -> outcome st r st') /\
  (forall expr_prec lhs st r st',
     parseBinOpRHS fuel expr_prec lhs st = Some (r, st') -> outcome st r st').
Proof.
  induction fuel as [|f (IHe & IHp & IHpar & IHid & IHargs & IHbin)];
    [by repeat split; intros|].
  assert (Hq : forall s, quiet s (snd (getNextToken s))).
  { intros s. unfold quiet. apply stderr_next. }
  assert (Herr : forall str s, one_error s (logError str s)).
  { intros str s. by exists str. }
  split; [|split; [|split; [|split; [|split]]]].
  - intros st r st' H. simpl in H.
    destruct (parsePrimary f st) as [[[lhs|] s1]|] eqn:E; [| |done];
      apply IHp in E.
    + apply IHbin in H. by apply (quiet_then_outcome _ s1).
    + by inversion H; subst.
  - intros st r st' H. simpl in H. unfold parseNumberExpr in H.
    destruct (_ =? _); [by apply IHid in H|].
    destruct (_ =? _); [inversion H; subst; apply Hq|].
    destruct (_ =? _); [by apply IHpar in H|].
    inversion H; subst. apply Herr.
  - intros st r st' H. simpl in H.
    destruct (parseExpression f _) as [[[v|] s1]|] eqn:E; [| |done];
      apply IHe in E.
    + destruct (negb _); inversion H; subst; simpl.
      * apply (quiet_then_error _ (snd (getNextToken st))); [apply Hq|].
        apply (quiet_then_error _ s1); [done|apply Herr].
      * unfold quiet in *. simpl in E. rewrite stderr_next, E. apply stderr_next.
    + inversion H; subst. apply (quiet_then_outcome _ _ _ _ (Hq st) E).
  - intros st r st' H. simpl in H.
    destruct (negb _); [inversion H; subst; apply Hq|].
    destruct (negb _).
    + destruct (parseArgs f _ _) as [[[args|] s1]|] eqn:E; [| |done];
        apply IHargs in E; inversion H; subst; simpl in *.
      * unfold quiet in *. rewrite stderr_next, E, !stderr_next. done.
      * apply (quiet_then_error _ (snd (getNextToken st))); [apply Hq|].
        apply (quiet_then_error _ (snd (getNextToken (snd (getNextToken st)))));
          [apply Hq|done].
    + inversion H; subst. simpl. unfold quiet. by rewrite !stderr_next.
  - intros args st r st' H. simpl in H.
    destruct (parseExpression f st) as [[[arg|] s1]|] eqn:E; [| |done];
      apply IHe in E; [|by inversion H; subst].
    destruct (_ =? _); [by inversion H; subst|].
    destruct (negb _).
    + inversion H; subst. apply (quiet_then_error _ s1); [done|apply Herr].
    + apply IHargs in H. apply (quiet_then_outcome _ s1); [done|].
      apply (quiet_then_outcome _ (snd (getNextToken s1))); [apply Hq|done].
  - intros expr_prec lhs st r st' H. simpl in H.
    destruct (getTokPrecedence st) as [tok_prec s1] eqn:E0.
    apply stderr_prec in E0. fold (quiet st s1) in E0.
    destruct (_ <? _); [by inversion H; subst|].
    apply (quiet_then_outcome _ s1); [done|].
    apply (quiet_then_outcome _ (snd (getNextToken s1))); [apply Hq|].
    destruct (parsePrimary f _) as [[[rhs|] s3]|] eqn:E; [| |done];
      apply IHp in E; [|by inversion H; subst].
    apply (quiet_then_outcome _ s3); [done|].
    destruct (getTokPrecedence s3) as [next_prec s4] eqn:E1.
    apply stderr_prec in E1. fold (quiet s3 s4) in E1.
    apply (quiet_then_outcome _ s4); [done|].
    destruct (_ <? _); [|by apply IHbin in H].
    destruct (parseBinOpRHS f _ _ _) as [[[rhs'|] s5]|] eqn:E'; [| |done];
      apply IHbin in E'; [|by inversion H; subst].
    apply IHbin in H. by apply (quiet_then_outcome _ s5).
Qed.

Lemma read_arg_names_quiet (fuel : nat) : forall names st names' st',
  read_arg_names fuel names st = Some (names', st') -> quiet st st'.
Proof.
  induction fuel as [|f IH]; intros names st names' st' H; [done|].
  simpl in H. pose proof (stderr_next st) as Hn.
  destruct (getNextToken st) as [t s1]. simpl in Hn.
  destruct (_ =? _).
  - apply IH in H. unfold quiet in *. congruence.
  - by inversion H; subst.
Qed.

Lemma parsePrototype_outcome fuel st r st' :
  parsePrototype fuel st = Some (r, st') -> outcome st r st'.
Proof.
  unfold parsePrototype, logErrorP. intros H.
  destruct (negb _); [inversion H; subst; by eexists|].
  destruct (negb _).
  { inversion H; subst. simpl. eexists. by rewrite stderr_logError, stderr_next. }
  destruct (read_arg_names _ _ _) as [[names s1]|] eqn:E; [|done].
  apply read_arg_names_quiet in E. unfold quiet in E. rewrite stderr_next in E.
  destruct (negb _); inversion H; subst; simpl.
  - eexists. by rewrite stderr_logError, E.
  - unfold quiet. by rewrite stderr_next.
Qed.

Lemma parseDefinition_outcome fuel st r st' :
  parseDefinition fuel st = Some (r, st') -> outcome st r st'.
Proof.
  unfold parseDefinition. intros H.
  assert (Hq : quiet st (snd (getNextToken st))) by apply stderr_next.
  destruct (parsePrototype _ _) as [[[p|] s1]|] eqn:E; [| |done];
    apply parsePrototype_outcome in E.
  - destruct (parseExpression _ _) as [[[e|] s2]|] eqn:E'; [| |done];
      apply (proj1 (parse_outcome fuel)) in E'; inversion H; subst.
    + simpl in *. unfold quiet in *. congruence.
    + apply (quiet_then_error _ _ _ Hq). by apply (quiet_then_error _ s1).
  - inversion H; subst. by apply (quiet_then_error _ _ _ Hq).
Qed.

Lemma parseExtern_outcome fuel st r st' :
  parseExtern fuel st = Some (r, st') -> outcome st r st'.
Proof.
  unfold parseExtern. intros H. apply parsePrototype_outcome in H.
  apply (quiet_then_outcome _ (snd (getNextToken st))); [apply stderr_next|done].
Qed.

Lemma parseTopLevelExpr_outcome fuel st r st' :
  parseTopLevelExpr fuel st = Some (r, st') -> outcome st r st'.
Proof.
  unfold parseTopLevelExpr. intros H.
  destruct (parseExpression _ _) as [[[e|] s2]|] eqn:E'; [| |done];
    apply (proj1 (parse_outcome fuel)) in E'; by inversion H; subst.
Qed.

(** X6.  Every parse that returns a node has printed nothing, and every
    parse that returns none has printed exactly one line, an error
    message: a failure is reported once, where it is found, and never
    again on the way out. *)
Theorem one_error_line_per_failure (st : state) :
  (forall r st', returns parseExpression st r st' -> outcome st r st') /\
  (forall r st', returns parsePrototype st r st' -> outcome st r st') /\
  (forall r st', returns parseDefinition st r st' -> outcome st r st') /\
  (forall r st', returns parseExtern st r st' -> outcome st r st') /\
  (forall r st', returns parseTopLevelExpr st r st' -> outcome st r st').
Proof.
  repeat split; intros r st' [f H].
  - by apply (proj1 (parse_outcome f)) in H.
  - by apply parsePrototype_outcome in H.
  - by apply parseDefinition_outcome in H.
  - by apply parseExtern_outcome in H.
  - by apply parseTopLevelExpr_outcome in H.
Qed.

Lemma one_error_line_per_failure_witness :
  exists st', one_error (start "foo(1 2)") st'.
Proof.
  eexists.
  apply (proj1 (one_error_line_per_failure (start "foo(1 2)")) None).
  exists 9%nat. vm_compute. reflexivity.
Defined.

Lemma handle_one_line {A} (parse : nat -> state -> parser A) report fuel st st' :
  (forall r s, parse fuel st = Some (r, s) -> outcome st r s) ->
  handle parse report fuel st = Some st' ->
  exists line, stderr st' = stderr st ++ [line] /\
               (is_error_line line \/ line = report).
Proof.
  intros Hp H. unfold handle in H.
  destruct (parse fuel st) as [[[a|] s1]|]; [| |done];
    pose proof (Hp _ _ eq_refl) as E; inversion H; subst; simpl in E.
  - exists report. unfold quiet in E. simpl. rewrite E. auto.
  - destruct E as [str E]. exists ("Error: " +:+ str +:+ nl).
    rewrite stderr_next. split; [done|]. left. by exists str.
Qed.

Lemma dispatch_lines (fuel : nat) (st st' : state) :
  dispatch fuel st = Some st' ->
  (cur_tok st = code ";" -> stderr st' = stderr st) /\
  (cur_tok st <> code ";" ->
   exists line, stderr st' = stderr st ++ [line] /\
                (is_error_line line \/ line = report_for (cur_tok st))).
Proof.
  unfold dispatch, report_for. intros H.
  destruct (cur_tok st =? code ";") eqn:E0.
  { apply Z.eqb_eq in E0. split; [|done]. intros _.
    inversion H; subst. apply stderr_next. }
  apply Z.eqb_neq in E0. split; [done|]. intros _.
  destruct (cur_tok st =? tok_def).
  { revert H. apply handle_one_line. apply parseDefinition_outcome. }
  destruct (cur_tok st =? tok_extern).
  { revert H. apply handle_one_line. apply parseExtern_outcome. }
  revert H. apply handle_one_line. apply parseTopLevelExpr_outcome.
Qed.

(** X7.  One turn of the driver on a token other than [tok_eof] prints
    nothing when the token is [';'], and otherwise exactly one line:
    either the report for the kind of construct, or one error message. *)
Theorem dispatch_prints_one_line (fuel : nat) (st st' : state) :
  dispatch fuel st = Some st' ->
  (cur_tok st = code ";" -> stderr st' = stderr st) /\
  (cur_tok st <> code ";" ->
   exists line, stderr st' = stderr st ++ [line] /\
                (is_error_line line \/ line = report_for (cur_tok st))).
Proof. apply dispatch_lines. Qed.

Lemma dispatch_prints_one_line_witness :
  exists st', dispatch 9 (start "extern sin(x)") = Some st' /\
    exists line, stderr st' = stderr (start "extern sin(x)") ++ [line] /\
                 (is_error_line line \/ line = "Parsed an extern" +:+ nl).
Proof.
  destruct (dispatch 9 (start "extern sin(x)")) as [st'|] eqn:E;
    [|vm_compute in E; discriminate E].
  exists st'. split; [reflexivity|].
  apply (proj2 (dispatch_prints_one_line 9 (start "extern sin(x)") st' E)).
  vm_compute. congruence.
Defined.

(** ** An expression takes every operator it can *)

Lemma getTokPrecedence_range (st : state) :
  fst (getTokPrecedence st) = -1 \/ 0 < fst (getTokPrecedence st).
Proof.
  destruct (getTokPrecedence st) as [p s1] eqn:E.
  apply getTokPrecedence_result in E as (_ & _ & [->|(H & _)]); auto.
Qed.

Lemma parseBinOpRHS_stops (fuel : nat) : forall expr_prec lhs st e st',
  parseBinOpRHS fuel expr_prec lhs st = Some (Some e, st') ->
  fst (getTokPrecedence st') < expr_prec /\ snd (getTokPrecedence st') = st'.
Proof.
  induction fuel as [|f IH]; intros expr_prec lhs st e st' H; [done|].
  simpl in H.
  pose proof (getTokPrecedence_again st) as Hagain.
  destruct (getTokPrecedence st) as [tok_prec s1] eqn:E0. simpl in Hagain.
  destruct (tok_prec <? expr_prec) eqn:Elt.
  { inversion H; subst. rewrite Hagain. simpl. split; [lia|done]. }
  destruct (parsePrimary f _) as [[[rhs|] s3]|]; [| |done]; [|done].
  destruct (getTokPrecedence s3) as [next_prec s4].
  destruct (tok_prec <? next_prec); [|by apply IH in H].
  destruct (parseBinOpRHS f _ _ _) as [[[rhs'|] s5]|]; [| |done]; [|done].
  by apply IH in H.
Qed.

(** X8.  A parse of the operator loop that succeeds stops in front of a
    token that binds less tightly than the minimum it was given, and a
    whole expression stops in front of a token that is no registered
    operator at all: asked there, the query answers -1 and changes
    nothing.  So no operator that could have been taken is left behind. *)
Theorem expression_is_maximal (st : state) :
  (forall expr_prec lhs e st',
     returns (parseBinOpRHS_from expr_prec lhs) st (Some e) st' ->
     fst (getTokPrecedence st') < expr_prec /\ snd (getTokPrecedence st') = st') /\
  (forall e st',
     returns parseExpression st (Some e) st' ->
     getTokPrecedence st' = (-1, st')).
Proof.
  split.
  - intros expr_prec lhs e st' [f H]. by apply parseBinOpRHS_stops in H.
  - intros e st' [f H]. destruct f as [|f]; [done|]. simpl in H.
    destruct (parsePrimary f st) as [[[lhs|] s1]|]; [| |done]; [|done].
    apply parseBinOpRHS_stops in H as [Hlt Hsame].
    destruct (getTokPrecedence_range st') as [Hm|Hpos]; [|lia].
    destruct (getTokPrecedence st') as [p s]. simpl in *. by subst.
Qed.

Lemma expression_is_maximal_witness :
  exists st', getTokPrecedence st' = (-1, st') /\ cur_tok st' = code ")".
Proof.
  eexists. split.
  - eapply (proj2 (expression_is_maximal (start "a*b+1)"))).
    exists 9%nat. vm_compute. reflexivity.
  - reflexivity.
Defined.

(** ** Tokens are consumed from the front *)

Lemma tokens_next (st : state) : tokens (snd (getNextToken st)) = pending st.
Proof.
  unfold tokens, getNextToken. destruct (getTok st) as [t st'] eqn:E. simpl.
  rewrite (pending_step _ _ _ E).
  assert (pending (with_tok st' t) = pending st') as -> by (by apply pending_view).
  destruct (t =? tok_eof) eqn:Et; [|done].
  apply Z.eqb_eq in Et. destruct (getTok_consumes _ _ _ E) as (Heof & _).
  by rewrite pending_at_EOF by auto.
Qed.

Lemma consumes_front_same a b :
  cur_tok b = cur_tok a -> lexview b = lexview a -> consumes_front a b.
Proof.
  intros Hc Hv. unfold consumes_front, tokens.
  by rewrite Hc, (pending_view _ _ Hv).
Qed.

Lemma consumes_front_trans a b c :
  consumes_front a b -> consumes_front b c -> consumes_front a c.
Proof. unfold consumes_front. intros H1 H2. by etrans. Qed.

Lemma consumes_front_next st : consumes_front st (snd (getNextToken st)).
Proof.
  unfold consumes_front. rewrite tokens_next. unfold tokens.
  apply suffix_app_r. done.
Qed.

Lemma consumes_front_prec st : consumes_front st (snd (getTokPrecedence st)).
Proof.
  destruct (getTokPrecedence_frame st) as (H1 & _ & H3 & _ & _ & H6).
  apply consumes_front_same; [done|]. unfold lexview. by rewrite H1, H3.
Qed.

Lemma consumes_front_print msg st : consumes_front st (fprintf msg st).
Proof. by apply consumes_front_same. Qed.

(** X9.  No token is ever pushed back or re-read.  [getNextToken] drops
    exactly the current token; and what is left unconsumed after any
    parse, after one turn of the driver or after the whole loop is a
    suffix of what was left before. *)
Theorem tokens_are_consumed_from_the_front (st : state) :
  tokens (advance st) = pending st /\
  (forall r st', returns parseExpression st r st' -> consumes_front st st') /\
  (forall r st', returns parsePrototype st r st' -> consumes_front st st') /\
  (forall r st', returns parseDefinition st r st' -> consumes_front st st') /\
  (forall r st', returns parseExtern st r st' -> consumes_front st st') /\
  (forall r st', returns parseTopLevelExpr st r st' -> consumes_front st st') /\
  (forall st', runs dispatch st st' -> consumes_front st st') /\
  (forall st', runs mainLoop st st' -> consumes_front st st').
Proof.
  split; [apply tokens_next|].
  repeat split; intros.
  - destruct H as [f H]. revert H. apply parseExpression_keeps;
      [apply consumes_front_trans|apply consumes_front_next|
       apply consumes_front_prec|intros; apply consumes_front_print].
  - destruct H as [f H]. revert H. apply parsePrototype_keeps;
      [apply consumes_front_trans|apply consumes_front_next|
       intros; apply consumes_front_print].
  - destruct H as [f H]. revert H. apply parseDefinition_keeps;
      [apply consumes_front_trans|apply consumes_front_next|
       apply consumes_front_prec|intros; apply consumes_front_print].
  - destruct H as [f H]. revert H. apply parseExtern_keeps;
      [apply consumes_front_trans|apply consumes_front_next|
       intros; apply consumes_front_print].
  - destruct H as [f H]. revert H. apply parseTopLevelExpr_keeps;
      [apply consumes_front_trans|apply consumes_front_next|
       apply consumes_front_prec|intros; apply consumes_front_print].
  - destruct H as [f H]. revert H. apply dispatch_keeps;
      [apply consumes_front_trans|apply consumes_front_next|
       apply consumes_front_prec|intros; apply consumes_front_print|
       intros; apply consumes_front_print].
  - destruct H as [f H]. revert H. apply mainLoop_keeps;
      [apply consumes_front_trans|apply consumes_front_next|
       apply consumes_front_prec|intros; apply consumes_front_print|
       intros; apply consumes_front_print].
Qed.

Lemma tokens_are_consumed_from_the_front_witness :
  exists r st', parseExpression 9 (start "f(1);x") = Some (r, st') /\
                consumes_front (start "f(1);x") st'.
Proof.
  destruct (parseExpression 9 (start "f(1);x")) as [[r st']|] eqn:E;
    [|vm_compute in E; discriminate E].
  exists r, st'. split; [reflexivity|].
  apply (proj1 (proj2 (tokens_are_consumed_from_the_front (start "f(1);x"))) r st').
  by exists 9%nat.
Defined.

(** ** Names in what the parser builds *)

Lemma name_ok_is_name (s : string) : is_name s -> name_ok s = true.
Proof.
  intros (H1 & H2 & H3). unfold name_ok. rewrite H1.
  apply String.eqb_neq in H2, H3. by rewrite H2, H3.
Qed.

Lemma lexed_next (st : state) : lookahead_ok st -> lexed (snd (getNextToken st)).
Proof.
  intros Hok. unfold getNextToken. destruct (getTok st) as [t st'] eqn:E.
  destruct (getTok_kinds _ _ _ Hok E) as (Hok' & _).
  destruct (getTok_words _ _ _ Hok E) as (_ & _ & Hname & _).
  split; [done|]. simpl. intros ->. by apply name_ok_is_name, Hname.
Qed.

Lemma stays_lexed_trans a b c : stays_lexed a b -> stays_lexed b c -> stays_lexed a c.
Proof. unfold stays_lexed. auto. Qed.

Lemma stays_lexed_next st : stays_lexed st (snd (getNextToken st)).
Proof. intros [Hok _]. by apply lexed_next. Qed.

Lemma stays_lexed_prec st : stays_lexed st (snd (getTokPrecedence st)).
Proof.
  destruct (getTokPrecedence_frame st) as (_ & _ & H3 & H4 & _ & H6).
  unfold stays_lexed, lexed, lookahead_ok. by rewrite H3, H4, H6.
Qed.

Lemma stays_lexed_print msg st : stays_lexed st (fprintf msg st).
Proof. intros H. exact H. Qed.

Lemma stays_lexed_parse (fuel : nat) :
  keeps stays_lexed (parseExpression fuel) /\
  keeps stays_lexed (parsePrimary fuel) /\
  keeps stays_lexed (parseParenExpr fuel) /\
  keeps stays_lexed (parseIdentifierExpr fuel) /\
  (forall args, keeps stays_lexed (parseArgs fuel args)) /\
  (forall expr_prec lhs, keeps stays_lexed (parseBinOpRHS fuel expr_prec lhs)).
Proof.
  apply parse_keeps;
    [apply stays_lexed_trans|apply stays_lexed_next|apply stays_lexed_prec|
     intros; apply stays_lexed_print].
Qed.

Lemma parse_names (fuel : nat) : forall st, lexed st ->
  (forall e st', parseExpression fuel st = Some (Some e, st') -> names_ok e = true) /\
  (forall e st', parsePrimary fuel st = Some (Some e, st') -> names_ok e = true) /\
  (forall e st', parseParenExpr fuel st = Some (Some e, st') -> names_ok e = true) /\
  (forall e st', cur_tok st = tok_identifier ->
     parseIdentifierExpr fuel st = Some (Some e, st') -> names_ok e = true) /\
  (forall args args' st',
     forallb names_ok args = true ->
     parseArgs fuel args st = Some (Some args', st') ->
     forallb names_ok args' = true) /\
  (forall expr_prec lhs e st',
     names_ok lhs = true ->
     parseBinOpRHS fuel expr_prec lhs st = Some (Some e, st') ->
     names_ok e = true).
Proof.
  induction fuel as [|f IH]; [by repeat split; intros|].
  destruct (stays_lexed_parse f) as (Ke & Kp & Kpar & Kid & Kargs & Kbin).
  intros st Hl. pose proof Hl as [Hok Hid].
  pose proof (lexed_next st Hok) as Hn.
  split; [|split; [|split; [|split; [|split]]]].
  - intros e st' H. simpl in H.
    destruct (parsePrimary f st) as [[[lhs|] s1]|] eqn:E; [| |done]; [|done].
    pose proof (Kp _ _ _ E Hl) as Hl1. apply (IH st Hl) in E.
    by apply (IH s1 Hl1) in H.
  - intros e st' H. simpl in H. unfold parseNumberExpr in H.
    destruct (cur_tok st =? tok_identifier) eqn:E1.
    { apply Z.eqb_eq in E1. by apply (IH st Hl) in H. }
    destruct (cur_tok st =? tok_number); [by inversion H|].
    destruct (cur_tok st =? code "("); [by apply (IH st Hl) in H|done].
  - intros e st' H. simpl in H.
    destruct (parseExpression f _) as [[[v|] s1]|] eqn:E; [| |done]; [|done].
    apply (IH _ Hn) in E. destruct (negb _); [done|]. by inversion H; subst.
  - intros e st' Hc H. simpl in H. specialize (Hid Hc).
    destruct (negb _); [inversion H; subst; done|].
    destruct (negb _); [|inversion H; subst; simpl; by rewrite Hid].
    destruct (parseArgs f _ _) as [[[args|] s1]|] eqn:E; [| |done]; [|done].
    apply (IH _ (lexed_next _ (proj1 Hn))) in E; [|done].
    inversion H; subst. simpl. by rewrite Hid, E.
  - intros args args' st' Hargs H. simpl in H.
    destruct (parseExpression f st) as [[[arg|] s1]|] eqn:E; [| |done]; [|done].
    pose proof (Ke _ _ _ E Hl) as Hl1. apply (IH st Hl) in E.
    assert (forallb names_ok (args ++ [arg]) = true) as Hall.
    { rewrite forallb_snoc, Hargs, E. done. }
    destruct (_ =? _); [by inversion H; subst|].
    destruct (negb _); [done|].
    by apply (IH _ (lexed_next _ (proj1 Hl1))) in H.
  - intros expr_prec lhs e st' Hlhs H. simpl in H.
    pose proof (stays_lexed_prec st Hl) as Hl1.
    destruct (getTokPrecedence st) as [tok_prec s1]. simpl in Hl1.
    destruct (tok_prec <? expr_prec); [by inversion H; subst|].
    pose proof (lexed_next _ (proj1 Hl1)) as Hl2.
    destruct (parsePrimary f _) as [[[rhs|] s3]|] eqn:E; [| |done]; [|done].
    pose proof (Kp _ _ _ E Hl2) as Hl3. apply (IH _ Hl2) in E.
    pose proof (stays_lexed_prec s3 Hl3) as Hl4.
    destruct (getTokPrecedence s3) as [next_prec s4]. simpl in Hl4.
    destruct (tok_prec <? next_prec).
    + destruct (parseBinOpRHS f _ _ _) as [[[rhs'|] s5]|] eqn:E'; [| |done]; [|done].
      pose proof (Kbin _ _ _ _ _ E' Hl4) as Hl5.
      apply (IH _ Hl4) in E'; [|done].
      apply (IH _ Hl5) in H; [done|]. simpl. by rewrite Hlhs, E'.
    + apply (IH _ Hl4) in H; [done|]. simpl. by rewrite Hlhs, E.
Qed.

Lemma start_lexed (inp : string) : lexed (start inp).
Proof. apply lexed_next. right. simpl. lia. Qed.

(** X10.  In a state the lexer has produced, every variable and every
    callee of a tree that [parseExpression] returns, at any depth, is an
    identifier (a letter, then letters and digits) that is neither "def"
    nor "extern".  The state [main] starts from is such a state, and every
    parse leaves one. *)
Theorem tree_names_are_identifiers (st : state) :
  lexed st ->
  (forall e st', returns parseExpression st (Some e) st' ->
     names_ok e = true /\ lexed st') /\
  (forall fn st', returns parseTopLevelExpr st (Some fn) st' ->
     names_ok (body fn) = true /\ proto fn = mkPrototype "" []) /\
  (forall inp, lexed (start inp)).
Proof.
  intros Hl. split; [|split].
  - intros e st' [f H]. split.
    + by apply (parse_names f st Hl) in H.
    + apply (proj1 (stays_lexed_parse f)) in H. by apply H.
  - intros fn st' [f H]. unfold parseTopLevelExpr in H.
    destruct (parseExpression f st) as [[[e|] s1]|] eqn:E; [| |done]; [|done].
    inversion H; subst. split; [|done]. by apply (parse_names f st Hl) in E.
  - apply start_lexed.
Qed.

Lemma tree_names_are_identifiers_witness :
  exists e st', returns parseExpression (start "f(x1, 2)+y") (Some e) st' /\
                names_ok e = true.
Proof.
  destruct (parseExpression 9 (start "f(x1, 2)+y")) as [[[e|] st']|] eqn:E;
    [|vm_compute in E; discriminate E|vm_compute in E; discriminate E].
  exists e, st'. split; [by exists 9%nat|].
  apply (proj1 (tree_names_are_identifiers (start "f(x1, 2)+y")
                  (start_lexed "f(x1, 2)+y")) e st').
  by exists 9%nat.
Defined.

Lemma read_arg_names_names (fuel : nat) : forall names st names' st',
  lookahead_ok st -> forallb name_ok names = true ->
  read_arg_names fuel names st = Some (names', st') ->
  forallb name_ok names' = true /\ lexed st'.
Proof.
  induction fuel as [|f IH]; intros names st names' st' Hok Hn H; [done|].
  simpl in H. pose proof (lexed_next st Hok) as Hl.
  pose proof (cur_tok_getNextToken st) as Hc.
  destruct (getNextToken st) as [t s1]. simpl in *.
  destruct (t =? tok_identifier) eqn:Et.
  - apply Z.eqb_eq in Et. subst t. apply IH in H; [done|apply Hl|].
    rewrite forallb_snoc, Hn. simpl. by apply Hl.
  - by inversion H; subst.
Qed.

Lemma parsePrototype_names fuel st p st' :
  lexed st ->
  parsePrototype fuel st = Some (Some p, st') ->
  cur_tok st = tok_identifier /\ proto_name p = identifier_str st /\
  name_ok (proto_name p) = true /\ forallb name_ok (proto_args p) = true /\
  lexed st'.
Proof.
  intros [Hok Hid]. unfold parsePrototype.
  destruct (cur_tok st =? tok_identifier) eqn:E; simpl; [|done].
  apply Z.eqb_eq in E. specialize (Hid E).
  destruct (negb _); [done|].
  destruct (read_arg_names _ _ _) as [[names s1]|] eqn:Er; [|done].
  apply read_arg_names_names in Er as [Hn Hl1]; [|by apply lexed_next|done].
  destruct (negb _); [done|]. intros [= <- <-]. simpl.
  repeat split; try done; by apply lexed_next, Hl1.
Qed.

(** X11.  With a look-ahead [getchar] can have answered, the name and
    every parameter of a prototype that [parseExtern] or [parseDefinition]
    returns is an identifier that is neither "def" nor "extern", and so is
    every variable and callee in the body of a definition.  Parameters
    are not compared with each other: a name may occur twice. *)
Theorem prototype_names_are_identifiers (st : state) :
  lookahead_ok st ->
  (forall p st', returns parseExtern st (Some p) st' ->
     name_ok (proto_name p) = true /\ forallb name_ok (proto_args p) = true) /\
  (forall fn st', returns parseDefinition st (Some fn) st' ->
     name_ok (proto_name (proto fn)) = true /\
     forallb name_ok (proto_args (proto fn)) = true /\
     names_ok (body fn) = true) /\
  (exists fn st', returns parseDefinition (start "def f(a a) a") (Some fn) st' /\
                  proto_args (proto fn) = ["a"; "a"]).
Proof.
  intros Hok. pose proof (lexed_next st Hok) as Hl. split; [|split].
  - intros p st' [f H]. unfold parseExtern in H.
    by apply parsePrototype_names in H as (_ & _ & H1 & H2 & _).
  - intros fn st' [f H]. unfold parseDefinition in H.
    destruct (parsePrototype f _) as [[[p|] s1]|] eqn:Ep; [| |done]; [|done].
    apply parsePrototype_names in Ep as (_ & _ & H1 & H2 & Hl1); [|done].
    destruct (parseExpression f s1) as [[[e|] s2]|] eqn:E; [| |done]; [|done].
    inversion H; subst. simpl. apply (parse_names f s1 Hl1) in E. done.
  - eexists _, _. split; [exists 9%nat; vm_compute; reflexivity|reflexivity].
Qed.

Lemma prototype_names_are_identifiers_witness :
  exists p st', returns parseExtern (start "extern cos(x)") (Some p) st' /\
                name_ok (proto_name p) = true.
Proof.
  destruct (parseExtern 9 (start "extern cos(x)")) as [[[p|] st']|] eqn:E;
    [|vm_compute in E; discriminate E|vm_compute in E; discriminate E].
  exists p, st'. split; [by exists 9%nat|].
  apply (proj1 (prototype_names_are_identifiers (start "extern cos(x)")
                  (proj1 (start_lexed "extern cos(x)"))) p st').
  by exists 9%nat.
Defined.

(** ** The whole input is read *)

Lemma skip_space_drained (inp : string) : forall c c' inp',
  (c = EOF -> inp = "") ->
  skip_space c inp = (c', inp') -> c' = EOF -> inp' = "".
Proof.
  induction inp as [|a rest IH]; intros c c' inp' Hd H; simpl in H.
  - by destruct (isspace c); inversion H; subst.
  - destruct (isspace c).
    + intros He. eapply IH; [|exact H|exact He].
      intros Hx. by destruct (code_not_EOF a).
    + inversion H; subst. done.
Qed.

Lemma read_ident_drained (inp : string) : forall acc id c' inp',
  read_ident acc inp = (id, c', inp') -> c' = EOF -> inp' = "".
Proof.
  induction inp as [|a rest IH]; intros acc id c' inp' H; simpl in H.
  - by inversion H; subst.
  - destruct (isalnum (code a)); [by eapply IH|].
    inversion H; subst. intros He. by destruct (code_not_EOF a).
Qed.

Lemma read_number_drained (inp : string) : forall acc c s c' inp',
  read_number acc c inp = (s, c', inp') -> c' = EOF -> inp' = "".
Proof.
  induction inp as [|a rest IH]; intros acc c s c' inp' H; simpl in H.
  - by inversion H; subst.
  - destruct (isdigit (code a) || (code a =? 46)); [by eapply IH|].
    inversion H; subst. intros He. by destruct (code_not_EOF a).
Qed.

Lemma getTok_drained (st : state) : drained st -> drained (snd (getTok st)).
Proof.
  unfold drained, getTok. intros Hd.
  destruct (skip_space _ _) as [c inp] eqn:Hs.
  pose proof (skip_space_drained _ _ _ _ Hd Hs) as Hc.
  destruct (isalpha c).
  { destruct (read_ident _ inp) as [[id c'] inp'] eqn:Hr.
    pose proof (read_ident_drained _ _ _ _ _ Hr) as Hr'.
    repeat case_match; exact Hr'. }
  destruct (isdigit c || (c =? 46)).
  { destruct (read_number _ c inp) as [[s c'] inp'] eqn:Hr.
    exact (read_number_drained _ _ _ _ _ _ Hr). }
  destruct (c =? EOF); [exact Hc|].
  destruct inp as [|a rest]; simpl; [done|].
  intros He. by destruct (code_not_EOF a).
Qed.

Lemma at_end_sound_next (st : state) :
  drained st -> at_end_sound (snd (getNextToken st)).
Proof.
  intros Hd. unfold getNextToken.
  pose proof (getTok_drained st Hd) as Hd'.
  destruct (getTok st) as [t st'] eqn:E.
  destruct (getTok_consumes _ _ _ E) as (Heof & _).
  split; [exact Heof|exact Hd'].
Qed.

Lemma stays_sound_prec st : stays_sound st (snd (getTokPrecedence st)).
Proof.
  destruct (getTokPrecedence_frame st) as (H1 & _ & H3 & _ & _ & H6).
  unfold stays_sound, at_end_sound, drained. by rewrite H1, H3, H6.
Qed.

Lemma stays_sound_mainLoop fuel st st' :
  mainLoop fuel st = Some st' -> stays_sound st st'.
Proof.
  apply mainLoop_keeps.
  - unfold stays_sound. auto.
  - intros s [_ Hd]. by apply at_end_sound_next.
  - apply stays_sound_prec.
  - intros msg s H. exact H.
  - intros msg s H. exact H.
Qed.

(** X12.  The program ends on every input, and when it ends it has read
    the input to its last character: the current token is [tok_eof], the
    look-ahead is the end marker, no character is unread and no token is
    left. *)
Theorem main_reads_the_whole_input (inp : string) :
  (exists fuel st', main fuel inp = Some st') /\
  (forall fuel st', main fuel inp = Some st' ->
     cur_tok st' = tok_eof /\ last_char st' = EOF /\ stdin st' = "" /\
     tokens st' = []).
Proof.
  split.
  - destruct (mainLoop_total (4 * remaining (start inp) + 5) (start inp))
      as [st' H]; [lia|]. by exists (4 * remaining (start inp) + 5)%nat, st'.
  - intros fuel st' H. unfold main in H.
    pose proof (mainLoop_stops_at_eof _ _ _ H) as Hc.
    apply stays_sound_mainLoop in H.
    destruct H as [He Hd]; [by apply at_end_sound_next|].
    specialize (He Hc). specialize (Hd He).
    repeat split; try done.
    unfold tokens. rewrite Hc. simpl. by apply pending_at_EOF.
Qed.

Lemma main_reads_the_whole_input_witness :
  exists st', main 9 "1+2;" = Some st' /\ stdin st' = "" /\ tokens st' = [].
Proof.
  destruct (main 9 "1+2;") as [st'|] eqn:E; [|vm_compute in E; discriminate E].
  exists st'. split; [reflexivity|].
  destruct (proj2 (main_reads_the_whole_input "1+2;") 9%nat st' E)
    as (_ & _ & H1 & H2).
  exact (conj H1 H2).
Defined.

(** ** Numbers *)

Lemma read_number_run (run : string) : forall acc c rest,
  string_forallb digit_or_dot run = true -> stops digit_or_dot rest = true ->
  read_number acc c (run +:+ rest) =
  (acc +:+ String (to_char c) run, fst (getchar rest), snd (getchar rest)).
Proof.
  induction run as [|a run IH]; intros acc c rest Hrun Hr.
  - rewrite append_empty_l. destruct rest as [|b r]; simpl in *; [done|].
    apply negb_true_iff in Hr. unfold digit_or_dot in Hr. by rewrite Hr.
  - rewrite append_cons. simpl in *.
    apply andb_true_iff in Hrun as [Ha Hrun]. unfold digit_or_dot in Ha.
    rewrite Ha, (IH _ _ _ Hrun Hr), to_char_code, append_snoc. done.
Qed.

(** X13.  A run of digits and dots followed by something else, or by
    nothing, is read whole as one number: the token is [tok_number],
    [num_val] is what [strtod] makes of exactly that run (which may hold
    several dots), and the character after the run becomes the
    look-ahead.  What [strtod] makes of it is a [double]: of [1.2.3] the
    binary64 number nearest to 1.2, which is 0x1.3333333333333p+0
    (5404319552844595 = 0x13333333333333) and not 6/5; of [0.1] the
    number 0x1.999999999999ap-4; of 309 nines infinity; and of a dot,
    400 zeros and a one, zero. *)
Theorem getTok_reads_number :
  (forall (st : state) (a : ascii) (run rest : string),
     digit_or_dot (code a) = true ->
     string_forallb digit_or_dot run = true ->
     stops digit_or_dot rest = true ->
     getTok (with_lexer st 32 (String a run +:+ rest)) =
     (tok_number,
      with_num (with_lexer st (fst (getchar rest)) (snd (getchar rest)))
               (strtod (String a run)))) /\
  strtod "1.2.3" = S754_finite false 5404319552844595 (-52) /\
  strtod "0.1" = S754_finite false 7205759403792794 (-56) /\
  strtod (run_of "9" 309) = S754_infinity false /\
  strtod (String "." (run_of "0" 400 +:+ "1")) = S754_zero false.
Proof.
  split; [|repeat split; vm_compute; reflexivity].
  intros st a run rest Ha Hrun Hr. unfold getTok.
  change (skip_space (last_char (with_lexer st 32 (String a run +:+ rest)))
            (stdin (with_lexer st 32 (String a run +:+ rest))))
    with (skip_space (code a) (run +:+ rest)).
  assert (isspace (code a) = false) as Hsp.
  { unfold digit_or_dot, isdigit, isspace in *. lia. }
  assert (isalpha (code a) = false) as Hal.
  { unfold digit_or_dot, isdigit, isalpha in *. lia. }
  rewrite (skip_space_nonspace _ _ Hsp), Hal.
  unfold digit_or_dot in Ha. rewrite Ha.
  rewrite (read_number_run run _ _ rest Hrun Hr), to_char_code.
  by rewrite append_empty_l.
Qed.

Lemma getTok_reads_number_witness :
  getTok (with_lexer (initial "") 32 ("1.2.3" +:+ "+x")) =
  (tok_number,
   with_num (with_lexer (initial "") (code "+") "x")
            (S754_finite false 5404319552844595 (-52))).
Proof.
  destruct getTok_reads_number as (H & E & _). rewrite <- E.
  apply (H (initial "") "1"%char ".2.3" "+x"); reflexivity.
Defined.

(** ** What the program prints *)

Lemma report_for_line (t : Z) : driver_line (report_for t).
Proof.
  unfold driver_line, report_for.
  destruct (t =? tok_def); [auto|]. destruct (t =? tok_extern); auto.
Qed.

Lemma mainLoop_lines (fuel : nat) : forall st st',
  mainLoop fuel st = Some st' ->
  exists ls, stderr st' = stderr st ++ ls ++ ["ready> "] /\ Forall driver_line ls.
Proof.
  induction fuel as [|f IH]; intros st st' H; [done|].
  simpl in H. destruct (cur_tok st =? tok_eof) eqn:Ec.
  { inversion H; subst. by exists []. }
  destruct (dispatch f _) as [s1|] eqn:Ed; [|done].
  apply IH in H as (ls & Hls & Hall).
  apply dispatch_lines in Ed as [Hsemi Hline]. simpl in *.
  destruct (Z.eq_dec (cur_tok st) (code ";")) as [E|E].
  - exists ("ready> " :: ls). rewrite Hls, (Hsemi E), <- app_assoc.
    split; [done|]. apply Forall_cons. split; [by left|done].
  - destruct (Hline E) as (line & Hs1 & Hl).
    exists ("ready> " :: line :: ls). rewrite Hls, Hs1, <- !app_assoc.
    split; [done|]. apply Forall_cons. split; [by left|].
    apply Forall_cons. split; [|done].
    destruct Hl as [Hl| ->]; [by do 4 right|apply report_for_line].
Qed.

(** X14.  Whatever the input, the program prints only prompts, the three
    reports and error messages: its output starts with a prompt, ends
    with a prompt, and every line between is one of those. *)
Theorem main_prints_prompts_reports_errors (fuel : nat) (inp : string) (st' : state) :
  main fuel inp = Some st' ->
  exists ls, stderr st' = ["ready> "] ++ ls ++ ["ready> "] /\ Forall driver_line ls.
Proof.
  unfold main. intros H. apply mainLoop_lines in H as (ls & Hls & Hall).
  exists ls. split; [|done]. rewrite Hls. f_equal.
  unfold start. by rewrite stderr_next.
Qed.

Lemma main_prints_prompts_reports_errors_witness :
  exists st' ls, main 9 "x )" = Some st' /\
                 stderr st' = ["ready> "] ++ ls ++ ["ready> "] /\
                 Forall driver_line ls.
Proof.
  destruct (main 9 "x )") as [st'|] eqn:E; [|vm_compute in E; discriminate E].
  destruct (main_prints_prompts_reports_errors 9 "x )" st' E) as (ls & H1 & H2).
  exists st', ls. split; [reflexivity|exact (conj H1 H2)].
Defined.

(** ** Printing a prototype and parsing it back *)

Lemma append_assoc (s t u : string) : (s +:+ t) +:+ u = s +:+ (t +:+ u).
Proof. induction s as [|a s IH]; [done|]. by rewrite !append_cons, IH. Qed.

Lemma getTok_word_at (s : state) (a : ascii) (w rest : string) :
  positioned s (" " +:+ String a w +:+ rest) ->
  isalpha (code a) = true -> string_forallb isalnum w = true ->
  stops isalnum rest = true ->
  getTok s = (word_token (String a w),
              with_identifier (with_lexer s (fst (getchar rest)) (snd (getchar rest)))
                              (String a w)).
Proof.
  intros [Hc Hi] Ha Hw Hr. destruct s as [inp err c id nv t m]. simpl in *. subst.
  exact (getTok_word (mkState "" err 32 id nv t m) a w rest Ha Hw Hr).
Qed.

Lemma getTok_punct_at (s : state) (a : ascii) (rest : string) :
  positioned s (String a rest) ->
  isspace (code a) = false -> isalnum (code a) = false ->
  digit_or_dot (code a) = false ->
  getTok s = (code a, with_lexer s (fst (getchar rest)) (snd (getchar rest))).
Proof.
  intros [Hc Hi] Hsp Hal Hd. unfold getTok. rewrite Hc, Hi.
  rewrite (skip_space_nonspace _ _ Hsp).
  unfold isalnum in Hal. apply orb_false_iff in Hal as [Hal _]. rewrite Hal.
  unfold digit_or_dot in Hd. rewrite Hd.
  pose proof (code_not_EOF a) as Hne. apply Z.eqb_neq in Hne. rewrite Hne.
  by destruct (getchar rest).
Qed.

Lemma is_name_word (p : string) :
  is_name p ->
  exists a w, p = String a w /\ isalpha (code a) = true /\
              string_forallb isalnum w = true /\ word_token p = tok_identifier.
Proof.
  intros (Hid & Hd & He). destruct p as [|a w]; [done|].
  simpl in Hid. apply andb_true_iff in Hid as [Ha Hw].
  exists a, w. repeat split; try done.
  unfold word_token. apply String.eqb_neq in Hd, He. by rewrite Hd, He.
Qed.

Lemma positioned_after (s : state) (t : string) :
  t <> "" -> positioned (with_lexer s (fst (getchar t)) (snd (getchar t))) t.
Proof. destruct t; [done|]. by intros _. Qed.

Lemma positioned_frame (s s' : state) (t : string) :
  lexview s' = lexview s -> positioned s t -> positioned s' t.
Proof.
  unfold lexview, positioned. intros [= H1 H2]. destruct t; [done|].
  by rewrite H1, H2.
Qed.

Lemma params_then_paren (ps : list string) (rest : string) :
  render_params ps +:+ ")" +:+ rest <> "" /\
  stops isalnum (render_params ps +:+ ")" +:+ rest) = true.
Proof. by destruct ps. Qed.

Lemma read_arg_names_render (ps : list string) : forall fuel acc s rest,
  Forall is_name ps ->
  positioned s (render_params ps +:+ ")" +:+ rest) ->
  (length ps < fuel)%nat ->
  exists s', read_arg_names fuel acc s = Some (acc ++ ps, s') /\
             cur_tok s' = code ")".
Proof.
  induction ps as [|p ps IH]; intros fuel acc s rest Hn Hpos Hf;
    (destruct fuel as [|f]; [simpl in Hf; lia|]); simpl.
  - unfold getNextToken.
    rewrite (getTok_punct_at s ")" rest Hpos eq_refl eq_refl eq_refl).
    simpl. rewrite app_nil_r. eauto.
  - apply Forall_cons in Hn as [Hp Hps].
    destruct (is_name_word p Hp) as (a & w & -> & Ha & Hw & Htok).
    destruct (params_then_paren ps rest) as [Hne Hstop].
    unfold getNextToken.
    rewrite (getTok_word_at s a w (render_params ps +:+ ")" +:+ rest)); try done.
    + rewrite Htok. simpl.
      destruct (IH f (acc ++ [String a w])
                  (with_tok
                     (with_identifier
                        (with_lexer s
                           (fst (getchar (render_params ps +:+ ")" +:+ rest)))
                           (snd (getchar (render_params ps +:+ ")" +:+ rest))))
                        (String a w)) tok_identifier) rest Hps)
        as (s' & Hs' & Hc).
      * apply (positioned_frame
                 (with_lexer s
                    (fst (getchar (render_params ps +:+ ")" +:+ rest)))
                    (snd (getchar (render_params ps +:+ ")" +:+ rest)))));
          [done|by apply positioned_after].
      * simpl in Hf. lia.
      * exists s'. by rewrite Hs', <- app_assoc.
    + revert Hpos. simpl render_params.
      by rewrite !append_assoc.
Qed.

Lemma parsePrototype_render (name : string) (ps : list string) (rest : string)
    (s : state) (fuel : nat) :
  Forall is_name ps ->
  cur_tok s = tok_identifier -> identifier_str s = name ->
  positioned s ("(" +:+ render_params ps +:+ ")" +:+ rest) ->
  (length ps < fuel)%nat ->
  exists st', parsePrototype fuel s = Some (Some (mkPrototype name ps), st').
Proof.
  intros Hps Hc Hid Hpos Hf. unfold parsePrototype.
  rewrite Hc, Hid. simpl.
  destruct (params_then_paren ps rest) as [Hne _].
  assert (getNextToken s =
          (code "(",
           with_tok (with_lexer s
                       (fst (getchar (render_params ps +:+ ")" +:+ rest)))
                       (snd (getchar (render_params ps +:+ ")" +:+ rest))))
                    (code "("))) as Hnext.
  { unfold getNextToken.
    by rewrite (getTok_punct_at s "(" _ Hpos eq_refl eq_refl eq_refl). }
  rewrite Hnext. simpl.
  destruct (read_arg_names_render ps fuel []
              (with_tok (with_lexer s
                           (fst (getchar (render_params ps +:+ ")" +:+ rest)))
                           (snd (getchar (render_params ps +:+ ")" +:+ rest))))
                        (code "(")) rest Hps) as (s' & Hs' & Hc'); [|done|].
  { apply (positioned_frame
             (with_lexer s
                (fst (getchar (render_params ps +:+ ")" +:+ rest)))
                (snd (getchar (render_params ps +:+ ")" +:+ rest)))));
      [done|by apply positioned_after]. }
  rewrite Hs'. simpl. rewrite Hc'. simpl. eauto.
Qed.

(** X15.  A prototype printed as an extern declaration parses back to
    itself: for every name and every list of parameter names (identifiers
    that are not keywords), parsing
    ["extern name( p1 p2 ... pn)"], whatever text follows, returns the
    prototype with that name and exactly those parameters in that
    order. *)
Theorem extern_round_trip (name : string) (ps : list string) (rest : string) :
  is_name name -> Forall is_name ps ->
  exists st',
    returns parseExtern (start ("extern " +:+ render_prototype name ps +:+ rest))
      (Some (mkPrototype name ps)) st'.
Proof.
  intros Hname Hps.
  destruct (is_name_word name Hname) as (a & w & -> & Ha & Hw & Htok).
  set (tail := "(" +:+ render_params ps +:+ ")" +:+ rest).
  assert (render_prototype (String a w) ps +:+ rest = String a w +:+ tail) as Htext.
  { unfold render_prototype, tail. by rewrite !append_assoc. }
  rewrite Htext.
  set (s0 := fprintf "ready> "
               (install_binops (initial ("extern " +:+ String a w +:+ tail)))).
  assert (getTok s0 =
          (tok_extern,
           with_identifier (with_lexer s0 32 (String a w +:+ tail)) "extern")) as H0.
  { apply (getTok_word_at s0 "e" "xtern" (" " +:+ String a w +:+ tail)); done. }
  assert (start ("extern " +:+ String a w +:+ tail) =
          with_tok (with_identifier (with_lexer s0 32 (String a w +:+ tail)) "extern")
                   tok_extern) as Hstart.
  { unfold start, getNextToken. fold s0. by rewrite H0. }
  rewrite Hstart.
  set (s1 := with_tok (with_identifier (with_lexer s0 32 (String a w +:+ tail))
                         "extern") tok_extern).
  assert (getTok s1 =
          (tok_identifier,
           with_identifier (with_lexer s1 (fst (getchar tail)) (snd (getchar tail)))
                           (String a w))) as H1.
  { rewrite <- Htok. apply (getTok_word_at s1 a w tail); done. }
  destruct (parsePrototype_render (String a w) ps rest
              (with_tok (with_identifier
                           (with_lexer s1 (fst (getchar tail)) (snd (getchar tail)))
                           (String a w)) tok_identifier)
              (S (length ps)) Hps eq_refl eq_refl) as (st' & Hst'); [done|lia|].
  exists st', (S (length ps)). unfold parseExtern, getNextToken.
  rewrite H1. exact Hst'.
Qed.

Lemma extern_round_trip_witness :
  exists st',
    returns parseExtern (start ("extern " +:+ render_prototype "atan2" ["y"; "x"] +:+ ";"))
      (Some (mkPrototype "atan2" ["y"; "x"])) st'.
Proof.
  apply (extern_round_trip "atan2" ["y"; "x"] ";").
  - repeat split; done.
  - repeat constructor; done.
Defined.

(** * Operator chains: precedence and association in general *)

Lemma binds_at_least_weaken (t : chain_tree) : forall b b',
  b' <= b -> binds_at_least b t = true -> binds_at_least b' t = true.
Proof.
  induction t as [e|op prec l IHl r IHr]; intros b b' Hle H; [done|].
  simpl in *. apply andb_true_iff in H as [H Hr].
  apply andb_true_iff in H as [Hp Hl].
  rewrite (IHl _ _ Hle Hl), (IHr _ _ Hle Hr).
  apply Z.leb_le in Hp. replace (b' <=? prec) with true; [done|].
  symmetry. apply Z.leb_le. lia.
Qed.

Lemma cur_tok_getTokPrecedence (st : state) :
  cur_tok (snd (getTokPrecedence st)) = cur_tok st.
Proof.
  destruct (getTokPrecedence st) as [p s1] eqn:E.
  by apply getTokPrecedence_result in E as (Hc & _).
Qed.

Lemma operator_chain_again (st : state) ls st' :
  operator_chain (snd (getTokPrecedence st)) ls st' -> operator_chain st ls st'.
Proof.
  intros H. pose proof (getTokPrecedence_again st) as Ha.
  inversion H as [s E1 E2|s op prec rhs s3 ls' s' Hp Hpos Hop Hr Hc E1 E2]; subst.
  - rewrite Ha. constructor.
  - rewrite Ha in Hr, Hpos |- *. rewrite cur_tok_getTokPrecedence.
    by econstructor.
Qed.

Lemma operator_chain_app (st : state) ls1 : forall st1 ls2 st2,
  operator_chain st ls1 st1 -> operator_chain st1 ls2 st2 ->
  operator_chain st (ls1 ++ ls2) st2.
Proof.
  intros st1 ls2 st2 H1. revert ls2 st2.
  induction H1 as [s|s op prec rhs s3 ls s' Hp Hpos Hop Hr Hc IH]; intros ls2 st2 H2.
  - by apply operator_chain_again.
  - simpl. econstructor; eauto.
Qed.

(** The operator loop, entered with the tree [lhs] made so far. *)
Lemma parseBinOpRHS_nests (fuel : nat) : forall expr_prec lhs st e st',
  parseBinOpRHS fuel expr_prec (erase lhs) st = Some (Some e, st') ->
  0 <= expr_prec ->
  well_nested lhs = true ->
  binds_at_least expr_prec lhs = true ->
  binds_at_least (fst (getTokPrecedence st)) lhs = true ->
  exists t ls,
    operator_chain st ls st' /\
    erase t = e /\
    first_operand t = first_operand lhs /\
    links t = links lhs ++ ls /\
    well_nested t = true /\
    binds_at_least expr_prec t = true.
Proof.
  induction fuel as [|f IH]; intros expr_prec lhs st e st' H H0 Hw Hb Hn; [done|].
  simpl in H.
  pose proof (getTokPrecedence_range st) as Hrange.
  pose proof (cur_tok_getTokPrecedence st) as Hcur.
  destruct (getTokPrecedence st) as [tok_prec s1] eqn:E0. simpl in Hn, Hrange, Hcur.
  destruct (tok_prec <? expr_prec) eqn:Elt.
  { inversion H; subst. exists lhs, []. rewrite app_nil_r.
    replace st' with (snd (getTokPrecedence st)) by by rewrite E0.
    repeat split; try done. constructor. }
  apply Z.ltb_ge in Elt.
  assert (0 < tok_prec) as Hpos by lia.
  destruct (parsePrimary f _) as [[[rhs|] s3]|] eqn:Ep; [| |done]; [|done].
  assert (operator_chain st [(char_of_int (cur_tok st), tok_prec, rhs)]
            (snd (getTokPrecedence s3))) as Hlink.
  { econstructor; [by rewrite E0|done|done| |constructor].
    rewrite E0. exists f. exact Ep. }
  pose proof (getTokPrecedence_again s3) as Hagain.
  destruct (getTokPrecedence s3) as [next_prec s4] eqn:E3. simpl in Hagain, Hlink.
  rewrite Hcur in H.
  destruct (tok_prec <? next_prec) eqn:Enext.
  - destruct (parseBinOpRHS f (tok_prec + 1) rhs s4) as [[[rhs'|] s5]|] eqn:Ei;
      [| |done]; [|done].
    pose proof (parseBinOpRHS_stops _ _ _ _ _ _ Ei) as [Hstop Hsame].
    destruct (IH (tok_prec + 1) (Operand rhs) s4 rhs' s5 Ei) as
      (tr & lr & Hcr & Her & Hfr & Hlr & Hwr & Hbr); [lia|done|done|done|].
    simpl in Hfr, Hlr. subst rhs'.
    destruct (IH expr_prec (Join (char_of_int (cur_tok st)) tok_prec lhs tr)
                s5 e st' H) as (t & ls & Hc & He & Hf & Hl & Hwt & Hbt).
    + done.
    + simpl. by rewrite Hw, Hwr, Hn, Hbr.
    + simpl. rewrite Hb, (binds_at_least_weaken tr (tok_prec + 1) expr_prec ltac:(lia) Hbr).
      replace (expr_prec <=? tok_prec) with true; [done|].
      symmetry. apply Z.leb_le. lia.
    + simpl.
      rewrite (binds_at_least_weaken lhs tok_prec (fst (getTokPrecedence s5)) ltac:(lia) Hn).
      rewrite (binds_at_least_weaken tr (tok_prec + 1) (fst (getTokPrecedence s5)) ltac:(lia) Hbr).
      replace (fst (getTokPrecedence s5) <=? tok_prec) with true; [done|].
      symmetry. apply Z.leb_le. lia.
    + exists t, ((char_of_int (cur_tok st), tok_prec, rhs) :: lr ++ ls).
      repeat split; try done.
      * change (operator_chain st
                  ([(char_of_int (cur_tok st), tok_prec, rhs)] ++ lr ++ ls) st').
        eapply operator_chain_app; [exact Hlink|].
        eapply operator_chain_app; [exact Hcr|exact Hc].
      * rewrite Hl. simpl. rewrite Hfr, Hlr, <- app_assoc. done.
  - apply Z.ltb_ge in Enext.
    destruct (IH expr_prec (Join (char_of_int (cur_tok st)) tok_prec lhs (Operand rhs))
                s4 e st' H) as (t & ls & Hc & He & Hf & Hl & Hwt & Hbt).
    + done.
    + simpl. by rewrite Hw, Hn.
    + simpl. rewrite Hb.
      replace (expr_prec <=? tok_prec) with true; [done|].
      symmetry. apply Z.leb_le. lia.
    + simpl. rewrite Hagain. simpl.
      rewrite (binds_at_least_weaken lhs tok_prec next_prec ltac:(lia) Hn).
      replace (next_prec <=? tok_prec) with true; [done|].
      symmetry. apply Z.leb_le. lia.
    + exists t, ((char_of_int (cur_tok st), tok_prec, rhs) :: ls).
      repeat split; try done.
      * change (operator_chain st
                  ([(char_of_int (cur_tok st), tok_prec, rhs)] ++ ls) st').
        eapply operator_chain_app; [exact Hlink|exact Hc].
      * rewrite Hl. simpl. rewrite <- app_assoc. done.
Qed.

(** Links of one precedence: the well-nested tree is the left comb. *)
Lemma well_nested_one_precedence (q : Z) (t : chain_tree) :
  well_nested t = true ->
  Forall (fun l => link_prec l = q) (links t) ->
  erase t = nest_left (first_operand t) (links t).
Proof.
  induction t as [e|op prec l IHl r IHr]; intros Hw Hall; [done|].
  simpl in *.
  apply andb_true_iff in Hw as [Hw Hbr]. apply andb_true_iff in Hw as [Hw Hbl].
  apply andb_true_iff in Hw as [Hwl Hwr].
  apply Forall_app in Hall as [Hl Hr].
  apply Forall_cons in Hr as [Hq Hr]. unfold link_prec in Hq. simpl in Hq. subst prec.
  destruct r as [a|op2 prec2 l2 r2].
  - simpl. unfold nest_left. rewrite fold_left_app. simpl.
    f_equal. by apply IHl.
  - exfalso. simpl in Hr, Hbr.
    apply Forall_app in Hr as [_ Hr]. apply Forall_cons in Hr as [Hq2 _].
    unfold link_prec in Hq2. simpl in Hq2. subst prec2.
    apply andb_true_iff in Hbr as [Hbr _]. apply andb_true_iff in Hbr as [Hbr _].
    apply Z.leb_le in Hbr. lia.
Qed.

(** A list splits in one way only at the last of its least elements. *)
Lemma split_at_last_least {A} (f : A -> Z) (a1 : list A) : forall x b1 a2 y b2,
  a1 ++ x :: b1 = a2 ++ y :: b2 ->
  Forall (fun l => f x <= f l) a1 -> Forall (fun l => f x + 1 <= f l) b1 ->
  Forall (fun l => f y <= f l) a2 -> Forall (fun l => f y + 1 <= f l) b2 ->
  a1 = a2 /\ x = y /\ b1 = b2.
Proof.
  induction a1 as [|z a1 IH]; intros x b1 a2 y b2 E Ha1 Hb1 Ha2 Hb2.
  - destruct a2 as [|z a2]; simpl in E.
    + by inversion E.
    + inversion E; subst. exfalso.
      apply Forall_cons in Ha2 as [Hz _].
      apply Forall_app in Hb1 as [_ Hy]. apply Forall_cons in Hy as [Hy _]. lia.
  - destruct a2 as [|z2 a2]; simpl in E.
    + inversion E; subst. exfalso.
      apply Forall_cons in Ha1 as [Hz _].
      apply Forall_app in Hb2 as [_ Hx]. apply Forall_cons in Hx as [Hx _]. lia.
    + inversion E as [[Ez E']]; subst.
      apply Forall_cons in Ha1 as [_ Ha1]. apply Forall_cons in Ha2 as [_ Ha2].
      destruct (IH _ _ _ _ _ E' Ha1 Hb1 Ha2 Hb2) as (-> & -> & ->). done.
Qed.

(** Only one well-nested tree stands over a given chain. *)
Lemma binds_at_least_links (b : Z) (t : chain_tree) :
  binds_at_least b t = true <-> Forall (fun l => b <= link_prec l) (links t).
Proof.
  induction t as [e|op prec l IHl r IHr]; simpl.
  - split; [constructor|done].
  - rewrite !andb_true_iff, Forall_app, Forall_cons, IHl, IHr, Z.leb_le.
    unfold link_prec. simpl. tauto.
Qed.

Lemma well_nested_unique (t : chain_tree) : forall t',
  well_nested t = true -> well_nested t' = true ->
  first_operand t = first_operand t' -> links t = links t' -> t = t'.
Proof.
  induction t as [e|op prec l IHl r IHr]; intros t' Hw Hw' Hf Hl.
  - destruct t' as [e'|op' prec' l' r']; simpl in *; [by subst|].
    by destruct (links l').
  - destruct t' as [e'|op' prec' l' r']; simpl in *.
    { by destruct (links l). }
    apply andb_true_iff in Hw as [Hw Hbr]. apply andb_true_iff in Hw as [Hw Hbl].
    apply andb_true_iff in Hw as [Hwl Hwr].
    apply andb_true_iff in Hw' as [Hw' Hbr']. apply andb_true_iff in Hw' as [Hw' Hbl'].
    apply andb_true_iff in Hw' as [Hwl' Hwr'].
    apply binds_at_least_links in Hbr, Hbl, Hbr', Hbl'.
    assert (links l = links l' /\
            (op, prec, first_operand r) = (op', prec', first_operand r') /\
            links r = links r') as (El & Em & Er).
    { by apply (split_at_last_least link_prec). }
    inversion Em as [[Eop Eprec Efr]]. subst.
    f_equal; [by apply IHl|by apply IHr].
Qed.


Lemma parseBinOpRHS_joins_at_once (fuel : nat) expr_prec lhs st rhs st3 :
  expr_prec <= fst (getTokPrecedence st) ->
  parsePrimary fuel (advance (snd (getTokPrecedence st))) = Some (Some rhs, st3) ->
  fst (getTokPrecedence st3) <= fst (getTokPrecedence st) ->
  parseBinOpRHS (S fuel) expr_prec lhs st =
  parseBinOpRHS fuel expr_prec
    (BinaryExprAST (char_of_int (cur_tok st)) lhs rhs) (snd (getTokPrecedence st3)).
Proof.
  intros Hle Hp Hnext. simpl.
  pose proof (cur_tok_getTokPrecedence st) as Hcur.
  destruct (getTokPrecedence st) as [tok_prec s1]. simpl in *.
  apply Z.ltb_ge in Hle. rewrite Hle. unfold advance in Hp. rewrite Hp.
  destruct (getTokPrecedence st3) as [next_prec s4]. simpl in *.
  apply Z.ltb_ge in Hnext. by rewrite Hnext, Hcur.
Qed.

Lemma parseExpression_nests (st : state) e st' :
  returns parseExpression st (Some e) st' ->
  exists first st1 ls t,
    returns parsePrimary st (Some first) st1 /\
    operator_chain st1 ls st' /\
    fst (getTokPrecedence st') = -1 /\
    first_operand t = first /\ links t = ls /\
    well_nested t = true /\ erase t = e.
Proof.
  intros [fuel H]. destruct fuel as [|f]; [done|]. simpl in H.
  destruct (parsePrimary f st) as [[[lhs|] s1]|] eqn:Ep; [| |done]; [|done].
  pose proof (parseBinOpRHS_stops _ _ _ _ _ _ H) as [Hstop _].
  destruct (parseBinOpRHS_nests f 0 (Operand lhs) s1 e st' H)
    as (t & ls & Hc & He & Hf & Hl & Hw & _); [done..|].
  exists lhs, s1, ls, t. repeat split; try done.
  - by exists f.
  - destruct (getTokPrecedence_range st'); lia.
Qed.

(** C2.  Operators of equal precedence associate to the left, in three
    senses.  On the examples: [1-2-3] parses to [-(-(1, 2), 3)], any two
    registered operators of equal precedence in [1 o1 2 o2 3] nest to the
    left, and [1-2*3-4] parses to [-(-(1, *(2, 3)), 4)], the two [-] to
    the left across the [*] between them.  In general: every expression
    [parseExpression] returns is a first primary followed by a chain of
    operators and primaries that ends in front of a token that is no
    operator, and its tree is a well-nested tree over that chain (under
    each operator the left operand holds operators of the same or a
    higher precedence and the right operand only operators of a strictly
    higher one; operands are taken whole); it is the only such tree,
    and when all operators of the chain have one precedence it is the
    tree nested to the left throughout.  The reason in the loop: when the
    operator after the right-hand side does not bind strictly tighter
    than the one just consumed, the two sides are joined at once and the
    loop goes on with the joined tree as left-hand side. *)
Theorem equal_precedence_associates_left :
  (exists st',
     returns parseExpression (start "1-2-3")
       (Some (BinaryExprAST (code "-")
                (BinaryExprAST (code "-") (NumberExprAST 1) (NumberExprAST 2))
                (NumberExprAST 3))) st'
     /\ cur_tok st' = tok_eof) /\
  (forall o1 o2, In o1 binops -> In o2 binops ->
     precedence_of main_table (code o1) = precedence_of main_table (code o2) ->
     exists st', returns parseExpression (start (three_operands o1 o2))
                   (Some (left_nested o1 o2)) st') /\
  (exists st',
     returns parseExpression (start "1-2*3-4")
       (Some (BinaryExprAST (code "-")
                (BinaryExprAST (code "-") (NumberExprAST 1)
                   (BinaryExprAST (code "*") (NumberExprAST 2) (NumberExprAST 3)))
                (NumberExprAST 4))) st'
     /\ cur_tok st' = tok_eof) /\
  (forall st e st',
     returns parseExpression st (Some e) st' ->
     exists first st1 ls t,
       returns parsePrimary st (Some first) st1 /\
       operator_chain st1 ls st' /\
       fst (getTokPrecedence st') = -1 /\
       first_operand t = first /\ links t = ls /\
       well_nested t = true /\ erase t = e /\
       (forall t', well_nested t' = true -> first_operand t' = first ->
                   links t' = ls -> erase t' = e) /\
       (forall q, Forall (fun l => link_prec l = q) ls -> e = nest_left first ls)) /\
  (forall fuel expr_prec lhs st rhs st3,
     expr_prec <= fst (getTokPrecedence st) ->
     parsePrimary fuel (advance (snd (getTokPrecedence st))) = Some (Some rhs, st3) ->
     fst (getTokPrecedence st3) <= fst (getTokPrecedence st) ->
     parseBinOpRHS (S fuel) expr_prec lhs st =
     parseBinOpRHS fuel expr_prec
       (BinaryExprAST (char_of_int (cur_tok st)) lhs rhs)
       (snd (getTokPrecedence st3))).
Proof.
  split; [|split; [|split; [|split]]].
  - eexists. split; [exists 12%nat; vm_compute; reflexivity|reflexivity].
  - intros o1 o2 H1 H2 Heq. apply (returns_of_run _ 12%nat).
    rewrite (three_operand_shape o1 o2 H1 H2).
    rewrite Heq, Z.ltb_irrefl. done.
  - eexists. split; [exists 16%nat; vm_compute; reflexivity|reflexivity].
  - intros st e st' H.
    destruct (parseExpression_nests st e st' H)
      as (first & st1 & ls & t & Hp & Hc & Hend & Hf & Hl & Hw & He).
    exists first, st1, ls, t. repeat split; try done.
    + intros t' Hw' Hf' Hl'.
      by rewrite <- (well_nested_unique t t' Hw Hw') by congruence.
    + intros q Hq. subst.
      by apply (well_nested_one_precedence q).
  - intros. by apply parseBinOpRHS_joins_at_once.
Qed.

Lemma equal_precedence_associates_left_witness :
  (exists st', returns parseExpression (start (three_operands "+" "-"))
                 (Some (left_nested "+" "-")) st') /\
  (exists e st' t,
     returns parseExpression (start "1-2*3-4") (Some e) st' /\
     fst (getTokPrecedence st') = -1 /\
     well_nested t = true /\ erase t = e).
Proof.
  destruct equal_precedence_associates_left as (_ & H & _ & G & _).
  split.
  - apply (H "+"%char "-"%char); [simpl; tauto|simpl; tauto|reflexivity].
  - destruct (parseExpression 16 (start "1-2*3-4")) as [[[e|] st']|] eqn:E;
      [|vm_compute in E; discriminate E..].
    destruct (G (start "1-2*3-4") e st' (ex_intro _ 16%nat E))
      as (first & st1 & ls & t & Hp & Hc & Hend & Hf & Hl & Hw & He & _).
    exists e, st', t. split; [exists 16%nat; exact E|]. split; [exact Hend|].
    split; [exact Hw|exact He].
Defined.
